(** * Bundle adjustment on the BAL data set: a shallow embedding

    The development follows the two source files of the repository:

    - the g2o driver: [PoseAndIntrinsics], the camera vertex
      [VertexPoseAndIntrinsics], the point vertex [VertexPoint], the
      residual edge [EdgeProjection] and [SolveBA];
    - [common.h]: the problem container [BALProblem] with its text reader
      and writer and the angle-axis / camera-centre helpers.

    A C++ [double] is a value of an abstract scalar type [F] carrying the
    arithmetic operations the code uses.  Two instances are provided:
    [float] (IEEE-754 binary64, the kernel's primitive floats), on which
    every definition evaluates, and [R], the real numbers, for the
    algebraic statements that only hold in exact arithmetic.

    Sophus ([SO3d]), g2o and [rotation.h] are not among the source files.
    They enter through the interfaces [SO3Group] and [SO3ExpLog], through
    the [optimize] argument of [SolveBA], and through the variables of
    section [Common].

    Part I holds the definitions, Part II the lemmas and theorems. *)

From stdpp Require Import base option list strings.
From Stdlib Require Import ZArith Reals Lra RNsatz Floats.

Set Default Proof Using "Type".

(** * Part I: definitions *)

(** ** Scalars *)

Class Scalar (F : Type) : Type := {
  sc_zero : F;
  sc_one : F;
  sc_add : F -> F -> F;
  sc_sub : F -> F -> F;
  sc_mul : F -> F -> F;
  sc_div : F -> F -> F;
  sc_neg : F -> F
}.

Declare Scope scalar_scope.
Delimit Scope scalar_scope with sc.
Infix "+" := sc_add : scalar_scope.
Infix "-" := sc_sub : scalar_scope.
Infix "*" := sc_mul : scalar_scope.
Infix "/" := sc_div : scalar_scope.
Notation "- x" := (sc_neg x) : scalar_scope.

#[global] Instance Scalar_float : Scalar float := {
  sc_zero := 0%float;
  sc_one := 1%float;
  sc_add := PrimFloat.add;
  sc_sub := PrimFloat.sub;
  sc_mul := PrimFloat.mul;
  sc_div := PrimFloat.div;
  sc_neg := PrimFloat.opp
}.

#[global] Instance Scalar_R : Scalar R := {
  sc_zero := 0%R;
  sc_one := 1%R;
  sc_add := Rplus;
  sc_sub := Rminus;
  sc_mul := Rmult;
  sc_div := Rdiv;
  sc_neg := Ropp
}.

(** ** Eigen fixed-size vectors and the 2x2 information matrix *)

Record Vector3 (F : Type) : Type := mkV3 { v3_0 : F; v3_1 : F; v3_2 : F }.

Record Vector2 (F : Type) : Type := mkV2 { v2_0 : F; v2_1 : F }.

Record Matrix2 (F : Type) : Type :=
  mkM2 { m2_00 : F; m2_01 : F; m2_10 : F; m2_11 : F }.

Arguments mkV3 {F} _ _ _.
Arguments v3_0 {F} _.
Arguments v3_1 {F} _.
Arguments v3_2 {F} _.
Arguments mkV2 {F} _ _.
Arguments v2_0 {F} _.
Arguments v2_1 {F} _.
Arguments mkM2 {F} _ _ _ _.
Arguments m2_00 {F} _.
Arguments m2_01 {F} _.
Arguments m2_10 {F} _.
Arguments m2_11 {F} _.

Section Eigen.
Context {F : Type} `{Scalar F}.
Local Open Scope scalar_scope.

Definition Vector3_Zero : Vector3 F := mkV3 sc_zero sc_zero sc_zero.

Definition v3_add (a b : Vector3 F) : Vector3 F :=
  mkV3 (v3_0 a + v3_0 b) (v3_1 a + v3_1 b) (v3_2 a + v3_2 b).

Definition v3_neg (a : Vector3 F) : Vector3 F :=
  mkV3 (- v3_0 a) (- v3_1 a) (- v3_2 a).

(** [v / s] and [v *= s] are coefficient-wise; the scalar is taken by
    value when the expression is built. *)
Definition v3_div (a : Vector3 F) (s : F) : Vector3 F :=
  mkV3 (v3_0 a / s) (v3_1 a / s) (v3_2 a / s).

Definition v3_scale (a : Vector3 F) (s : F) : Vector3 F :=
  mkV3 (v3_0 a * s) (v3_1 a * s) (v3_2 a * s).

(** [squaredNorm] of a 3-vector: the sum of the squares of all three
    coefficients.  (The order in which Eigen adds them is not fixed by the
    source; it matters in binary64 only.) *)
Definition v3_squaredNorm (a : Vector3 F) : F :=
  v3_0 a * v3_0 a + v3_1 a * v3_1 a + v3_2 a * v3_2 a.

Definition v3_cross (a b : Vector3 F) : Vector3 F :=
  mkV3 (v3_1 a * v3_2 b - v3_2 a * v3_1 b)
       (v3_2 a * v3_0 b - v3_0 a * v3_2 b)
       (v3_0 a * v3_1 b - v3_1 a * v3_0 b).

Definition v2_sub (a b : Vector2 F) : Vector2 F :=
  mkV2 (v2_0 a - v2_0 b) (v2_1 a - v2_1 b).

Definition Matrix2_Identity : Matrix2 F :=
  mkM2 sc_one sc_zero sc_zero sc_one.

End Eigen.

(** ** Sophus::SO3d

    The rotation type of the Sophus library, by the operations the driver
    calls: the default constructor, the group product and the action on a
    point, and (apart, since they need trigonometry) the exponential and
    the logarithm. *)

Class SO3Group (F : Type) : Type := {
  SO3d : Type;
  SO3_identity : SO3d;
  SO3_mul : SO3d -> SO3d -> SO3d;
  SO3_act : SO3d -> Vector3 F -> Vector3 F
}.

Class SO3ExpLog (F : Type) `{SO3Group F} : Type := {
  SO3_exp : Vector3 F -> SO3d;
  SO3_log : SO3d -> Vector3 F
}.

(** ** Flat [double] arrays

    A [double *] into a caller-owned array is the array together with an
    offset.  Reading or writing outside the array is undefined behaviour:
    the result [None]. *)

Section Memory.
Context {F : Type}.

Definition load (mem : list F) (i : nat) : option F := mem !! i.

Definition store (mem : list F) (i : nat) (v : F) : option (list F) :=
  if decide (i < length mem) then Some (<[i := v]> mem) else None.

(** [for (int i = start; i < start + count; ++i) body], threading the
    state, stopping at the first undefined step. *)
Fixpoint for_range {S : Type} (body : nat -> S -> option S)
    (start count : nat) (s : S) : option S :=
  match count with
  | O => Some s
  | Datatypes.S k => s' ← body start s; for_range body (Datatypes.S start) k s'
  end.

(** [std::vector::operator[]] at an [int]: a negative or too large index
    is outside the vector. *)
Definition vector_at {A : Type} (v : list A) (i : Z) : option A :=
  if decide (0 <= i)%Z then v !! Z.to_nat i else None.

End Memory.

(** ** The camera block: [PoseAndIntrinsics] and its vertex *)

Section Camera.
Context {F : Type} `{Scalar F} `{SO3Group F}.
Local Open Scope scalar_scope.

Record PoseAndIntrinsics : Type := {
  rotation : SO3d;
  translation : Vector3 F;
  focal : F;
  k1 : F;
  k2 : F
}.

(** [PoseAndIntrinsics()]: the member initialisers. *)
Definition PoseAndIntrinsics_default : PoseAndIntrinsics :=
  {| rotation := SO3_identity;
     translation := Vector3_Zero;
     focal := sc_zero;
     k1 := sc_zero;
     k2 := sc_zero |}.

(** [VertexPoseAndIntrinsics::setToOriginImpl]. *)
Definition setToOriginImpl_pose : PoseAndIntrinsics :=
  PoseAndIntrinsics_default.

(** [VertexPoint::setToOriginImpl]. *)
Definition setToOriginImpl_point : Vector3 F :=
  mkV3 sc_zero sc_zero sc_zero.

(** [VertexPoseAndIntrinsics::project].  The camera-frame point is
    overwritten by [-pc / pc[2]], all three coefficients, and [r2] is the
    [squaredNorm] of that 3-vector. *)
Definition project (_estimate : PoseAndIntrinsics) (point : Vector3 F)
  : Vector2 F :=
  let pc := v3_add (SO3_act (rotation _estimate) point)
                   (translation _estimate) in
  let pc := v3_div (v3_neg pc) (v3_2 pc) in
  let r2 := v3_squaredNorm pc in
  let distortion := sc_one + r2 * (k1 _estimate + k2 _estimate * r2) in
  mkV2 (focal _estimate * distortion * v3_0 pc)
       (focal _estimate * distortion * v3_1 pc).

(** The camera-frame depth [pc[2]], the divisor in [project]. *)
Definition depth (_estimate : PoseAndIntrinsics) (point : Vector3 F) : F :=
  v3_2 (v3_add (SO3_act (rotation _estimate) point) (translation _estimate)).

(** [VertexPoint::oplusImpl]. *)
Definition oplusImpl_point (_estimate : Vector3 F) (update : list F)
  : option (Vector3 F) :=
  u0 ← load update 0;
  u1 ← load update 1;
  u2 ← load update 2;
  Some (v3_add _estimate (mkV3 u0 u1 u2)).

Context `{!SO3ExpLog F}.

(** [PoseAndIntrinsics(double *data_addr)], with [data_addr] the
    position [off] of [mem]. *)
Definition PoseAndIntrinsics_of (mem : list F) (off : nat)
  : option PoseAndIntrinsics :=
  d0 ← load mem off;
  d1 ← load mem (off + 1)%nat;
  d2 ← load mem (off + 2)%nat;
  d3 ← load mem (off + 3)%nat;
  d4 ← load mem (off + 4)%nat;
  d5 ← load mem (off + 5)%nat;
  d6 ← load mem (off + 6)%nat;
  d7 ← load mem (off + 7)%nat;
  d8 ← load mem (off + 8)%nat;
  Some {| rotation := SO3_exp (mkV3 d0 d1 d2);
          translation := mkV3 d3 d4 d5;
          focal := d6;
          k1 := d7;
          k2 := d8 |}.

(** [PoseAndIntrinsics::set_to(double *data_addr)]: nine stores, in the
    order of the source. *)
Definition set_to (e : PoseAndIntrinsics) (mem : list F) (off : nat)
  : option (list F) :=
  let r := SO3_log (rotation e) in
  mem ← store mem off (v3_0 r);
  mem ← store mem (off + 1)%nat (v3_1 r);
  mem ← store mem (off + 2)%nat (v3_2 r);
  mem ← store mem (off + 3)%nat (v3_0 (translation e));
  mem ← store mem (off + 4)%nat (v3_1 (translation e));
  mem ← store mem (off + 5)%nat (v3_2 (translation e));
  mem ← store mem (off + 6)%nat (focal e);
  mem ← store mem (off + 7)%nat (k1 e);
  store mem (off + 8)%nat (k2 e).

(** [VertexPoseAndIntrinsics::oplusImpl]. *)
Definition oplusImpl (_estimate : PoseAndIntrinsics) (update : list F)
  : option PoseAndIntrinsics :=
  u0 ← load update 0;
  u1 ← load update 1;
  u2 ← load update 2;
  u3 ← load update 3;
  u4 ← load update 4;
  u5 ← load update 5;
  u6 ← load update 6;
  u7 ← load update 7;
  u8 ← load update 8;
  Some {| rotation := SO3_mul (SO3_exp (mkV3 u0 u1 u2)) (rotation _estimate);
          translation := v3_add (translation _estimate) (mkV3 u3 u4 u5);
          focal := focal _estimate + u6;
          k1 := k1 _estimate + u7;
          k2 := k2 _estimate + u8 |}.

End Camera.

Arguments PoseAndIntrinsics F {_}.

(** ** The camera block as the specification words it *)

Section CameraSpec.
Context {F : Type} `{Scalar F} `{SO3Group F}.
Local Open Scope scalar_scope.

(** Camera frame [R p + t], perspective division of the negated
    coordinates, radial distortion [1 + k1 r^2 + k2 r^4] with [r^2] the
    squared norm of the two-dimensional normalised image point, scaling by
    the focal length. *)
Definition project_spec (e : PoseAndIntrinsics F) (p : Vector3 F)
  : Vector2 F :=
  let pc := v3_add (SO3_act (rotation e) p) (translation e) in
  let x := (- v3_0 pc) / v3_2 pc in
  let y := (- v3_1 pc) / v3_2 pc in
  let r2 := x * x + y * y in
  let distortion := sc_one + k1 e * r2 + k2 e * (r2 * r2) in
  mkV2 (focal e * distortion * x) (focal e * distortion * y).

(** The same polynomial at a radius that also counts the third
    coefficient [-pc[2] / pc[2]] of the divided vector, which is one in
    exact arithmetic. *)
Definition project_r2_3d (e : PoseAndIntrinsics F) (p : Vector3 F)
  : Vector2 F :=
  let pc := v3_add (SO3_act (rotation e) p) (translation e) in
  let x := (- v3_0 pc) / v3_2 pc in
  let y := (- v3_1 pc) / v3_2 pc in
  let r2 := x * x + y * y + sc_one in
  let distortion := sc_one + k1 e * r2 + k2 e * (r2 * r2) in
  mkV2 (focal e * distortion * x) (focal e * distortion * y).

Context `{!SO3ExpLog F}.

(** [delta[i : i + 3]] as a 3-vector. *)
Definition segment3 (delta : list F) (i : nat) : option (Vector3 F) :=
  match take 3 (drop i delta) with
  | [a; b; c] => Some (mkV3 a b c)
  | _ => None
  end.

(** The incremental rotation [exp(delta[0:3])] is composed on the left of
    the current rotation; translation, focal, k1 and k2 are added to. *)
Definition applyUpdate_spec (e : PoseAndIntrinsics F) (delta : list F)
  : option (PoseAndIntrinsics F) :=
  w ← segment3 delta 0;
  dt ← segment3 delta 3;
  df ← delta !! 6%nat;
  dk1 ← delta !! 7%nat;
  dk2 ← delta !! 8%nat;
  Some {| rotation := SO3_mul (SO3_exp w) (rotation e);
          translation := v3_add (translation e) dt;
          focal := focal e + df;
          k1 := k1 e + dk1;
          k2 := k2 e + dk2 |}.

(** The raw image of a camera block: the logarithm of the rotation, then
    translation, focal, k1, k2. *)
Definition toRaw_spec (e : PoseAndIntrinsics F) : list F :=
  [v3_0 (SO3_log (rotation e)); v3_1 (SO3_log (rotation e));
   v3_2 (SO3_log (rotation e));
   v3_0 (translation e); v3_1 (translation e); v3_2 (translation e);
   focal e; k1 e; k2 e].

End CameraSpec.

(** ** The problem container [BALProblem] *)

Section Problem.
Context {F : Type}.

Record BALProblem : Type := {
  num_cameras_ : Z;
  num_points_ : Z;
  num_observations_ : Z;
  num_parameters_ : Z;
  use_quaternions_ : bool;
  point_index_ : list Z;
  camera_index_ : list Z;
  observations_ : list F;
  parameters_ : list F
}.

Definition camera_block_size (p : BALProblem) : Z :=
  if use_quaternions_ p then 10%Z else 9%Z.

Definition point_block_size (p : BALProblem) : Z := 3%Z.

(** [mutable_cameras()]: the start of [parameters_]. *)
Definition mutable_cameras (p : BALProblem) : option nat := Some 0%nat.

(** [mutable_points()]: [parameters_ + camera_block_size() * num_cameras_].
    Forming a pointer outside the array is already undefined. *)
Definition mutable_points (p : BALProblem) : option nat :=
  let off := (camera_block_size p * num_cameras_ p)%Z in
  if decide (0 <= off <= Z.of_nat (length (parameters_ p)))%Z
  then Some (Z.to_nat off) else None.

(** A problem as the constructor leaves it on a valid file: the arrays
    have the sizes it allocates for the counts it read, and every
    observation refers to an existing camera and an existing point
    (indices are 0-based and dense). *)
Record BALProblem_wf (p : BALProblem) : Prop := {
  wf_cameras : (0 <= num_cameras_ p)%Z;
  wf_points : (0 <= num_points_ p)%Z;
  wf_observations : (0 <= num_observations_ p)%Z;
  wf_parameters :
    Z.of_nat (length (parameters_ p))
    = (camera_block_size p * num_cameras_ p + 3 * num_points_ p)%Z;
  wf_observations_len :
    Z.of_nat (length (observations_ p)) = (2 * num_observations_ p)%Z;
  wf_camera_index_len :
    Z.of_nat (length (camera_index_ p)) = num_observations_ p;
  wf_point_index_len :
    Z.of_nat (length (point_index_ p)) = num_observations_ p;
  wf_camera_index :
    Forall (fun c => 0 <= c < num_cameras_ p)%Z (camera_index_ p);
  wf_point_index :
    Forall (fun c => 0 <= c < num_points_ p)%Z (point_index_ p)
}.

End Problem.

Arguments BALProblem F : clear implicits.

(** ** The g2o graph built by [SolveBA] *)

Section G2O.
Context {F : Type} `{Scalar F} `{SO3Group F} `{!SO3ExpLog F}.

(** The robust kernels of g2o the driver instantiates. *)
Variant RobustKernel : Type := RobustKernelHuber.

(** A vertex object: its id ([setId]), its estimate, and for a point the
    marginalisation flag. *)
Record VertexPoseAndIntrinsics : Type := {
  pose_id : Z;
  pose_estimate : PoseAndIntrinsics F
}.

Record VertexPoint : Type := {
  point_id : Z;
  point_estimate : Vector3 F;
  point_marginalized : bool
}.

(** An edge holds two vertex pointers: here the positions of the vertex
    objects in [vertex_pose_intrinsics] and [vertex_points]. *)
Record EdgeProjection : Type := {
  _vertices_0 : nat;
  _vertices_1 : nat;
  _measurement : Vector2 F;
  _information : Matrix2 F;
  _robustKernel : option RobustKernel
}.

Record Graph : Type := {
  vertex_pose_intrinsics : list VertexPoseAndIntrinsics;
  vertex_points : list VertexPoint;
  edges : list EdgeProjection
}.

(** [EdgeProjection::computeError]: the value left in [_error]. *)
Definition computeError (g : Graph) (e : EdgeProjection)
  : option (Vector2 F) :=
  v0 ← vertex_pose_intrinsics g !! _vertices_0 e;
  v1 ← vertex_points g !! _vertices_1 e;
  let proj := project (pose_estimate v0) (point_estimate v1) in
  Some (v2_sub proj (_measurement e)).

(** The first loop of [SolveBA]: one camera vertex per camera block. *)
Definition add_camera_vertex (p : BALProblem F) (cameras : nat) (i : nat)
    (vs : list VertexPoseAndIntrinsics)
  : option (list VertexPoseAndIntrinsics) :=
  let camera := (cameras + Z.to_nat (camera_block_size p) * i)%nat in
  e ← PoseAndIntrinsics_of (parameters_ p) camera;
  Some (vs ++ [{| pose_id := Z.of_nat i; pose_estimate := e |}]).

(** The second loop: one marginalised point vertex per point block. *)
Definition add_point_vertex (p : BALProblem F) (points : nat) (i : nat)
    (vs : list VertexPoint) : option (list VertexPoint) :=
  let point := (points + Z.to_nat (point_block_size p) * i)%nat in
  x ← load (parameters_ p) point;
  y ← load (parameters_ p) (point + 1)%nat;
  z ← load (parameters_ p) (point + 2)%nat;
  Some (vs ++ [{| point_id := (Z.of_nat i + num_cameras_ p)%Z;
                  point_estimate := mkV3 x y z;
                  point_marginalized := true |}]).

(** The third loop: one edge per observation. *)
Definition add_edge (p : BALProblem F)
    (cams : list VertexPoseAndIntrinsics) (pts : list VertexPoint)
    (i : nat) (es : list EdgeProjection) : option (list EdgeProjection) :=
  ci ← camera_index_ p !! i;
  _ ← vector_at cams ci;
  pi ← point_index_ p !! i;
  _ ← vector_at pts pi;
  m0 ← load (observations_ p) (2 * i + 0)%nat;
  m1 ← load (observations_ p) (2 * i + 1)%nat;
  Some (es ++ [{| _vertices_0 := Z.to_nat ci;
                  _vertices_1 := Z.to_nat pi;
                  _measurement := mkV2 m0 m1;
                  _information := Matrix2_Identity;
                  _robustKernel := Some RobustKernelHuber |}]).

Definition build_graph (p : BALProblem F) : option Graph :=
  points ← mutable_points p;
  cameras ← mutable_cameras p;
  cams ← for_range (add_camera_vertex p cameras) 0
                   (Z.to_nat (num_cameras_ p)) [];
  pts ← for_range (add_point_vertex p points) 0
                  (Z.to_nat (num_points_ p)) [];
  es ← for_range (add_edge p cams pts) 0
                 (Z.to_nat (num_observations_ p)) [];
  Some {| vertex_pose_intrinsics := cams; vertex_points := pts; edges := es |}.

(** The write-back loops of [SolveBA]. *)
Definition save_camera (p : BALProblem F) (g : Graph) (cameras : nat)
    (i : nat) (mem : list F) : option (list F) :=
  let camera := (cameras + Z.to_nat (camera_block_size p) * i)%nat in
  vertex ← vertex_pose_intrinsics g !! i;
  set_to (pose_estimate vertex) mem camera.

Definition save_point (p : BALProblem F) (g : Graph) (points : nat)
    (j : nat) (mem : list F) : option (list F) :=
  let point := (points + Z.to_nat (point_block_size p) * j)%nat in
  vertex ← vertex_points g !! j;
  mem ← store mem (point + 0)%nat (v3_0 (point_estimate vertex));
  mem ← store mem (point + 1)%nat (v3_1 (point_estimate vertex));
  store mem (point + 2)%nat (v3_2 (point_estimate vertex)).

(** [SolveBA].  [optimize] stands for [initializeOptimization] followed by
    [optimizer.optimize(40)]: g2o revises the estimates held by the vertex
    objects.  The driver reads the point and observation counts through
    [num_points()] and [num_observations()], which [common.h] declares as
    [number_points()] and [number_observations()]; they are the fields
    [num_points_] and [num_observations_]. *)
Definition SolveBA (optimize : nat -> Graph -> Graph) (p : BALProblem F)
  : option (BALProblem F) :=
  points ← mutable_points p;
  cameras ← mutable_cameras p;
  g ← build_graph p;
  let g := optimize 40%nat g in
  mem ← for_range (save_camera p g cameras) 0
                  (Z.to_nat (num_cameras_ p)) (parameters_ p);
  mem ← for_range (save_point p g points) 0
                  (Z.to_nat (num_points_ p)) mem;
  Some {| num_cameras_ := num_cameras_ p;
          num_points_ := num_points_ p;
          num_observations_ := num_observations_ p;
          num_parameters_ := num_parameters_ p;
          use_quaternions_ := use_quaternions_ p;
          point_index_ := point_index_ p;
          camera_index_ := camera_index_ p;
          observations_ := observations_ p;
          parameters_ := mem |}.

End G2O.

Arguments VertexPoseAndIntrinsics F {_}.
Arguments VertexPoint F : clear implicits.
Arguments EdgeProjection F : clear implicits.
Arguments Graph F {_}.

(** ** Unit quaternions

    [rotation.h] passes a quaternion as four consecutive scalars; Sophus
    stores one inside [SO3d]. *)

Record Quaternion (F : Type) : Type :=
  mkQ { q_w : F; q_x : F; q_y : F; q_z : F }.

Arguments mkQ {F} _ _ _ _.
Arguments q_w {F} _.
Arguments q_x {F} _.
Arguments q_y {F} _.
Arguments q_z {F} _.

(** ** [common.h]: helpers, writer and reader *)

(** What [fprintf] puts into the file: an integer ([%d]) or a scalar
    ([%g], [%.16g]).  White space only separates the items and is not
    recorded. *)
Inductive item (F : Type) : Type :=
  | Int (z : Z)
  | Double_g (x : F)
  | Double_16g (x : F).

Arguments Int {F} _.
Arguments Double_g {F} _.
Arguments Double_16g {F} _.

(** How a run of a loop that need not end is observed: it returned, or it
    is still running when the step budget is used up, or it reached
    undefined behaviour (a read outside an array, an overflowing [++i]).
    The items written so far are kept in the last two cases. *)
Inductive outcome (F A : Type) : Type :=
  | Done (a : A)
  | OutOfFuel (written : list (item F))
  | Undefined (written : list (item F)).

Arguments Done {F A} _.
Arguments OutOfFuel {F A} _.
Arguments Undefined {F A} _.

Definition INT_MAX : Z := 2147483647.

Section Common.
Context {F : Type} `{Scalar F}.
Local Open Scope scalar_scope.

(** The three functions of [rotation.h] that [common.h] calls. *)
Variable AngleAxisRotatePoint : Vector3 F -> Vector3 F -> Vector3 F.
Variable QuaternionToAngleAxis : Quaternion F -> Vector3 F.
Variable AngleAxisToQuaternion : Vector3 F -> Quaternion F.

Definition read3 (mem : list F) (off : nat) : option (Vector3 F) :=
  a ← load mem off;
  b ← load mem (off + 1)%nat;
  c ← load mem (off + 2)%nat;
  Some (mkV3 a b c).

Definition read4 (mem : list F) (off : nat) : option (Quaternion F) :=
  a ← load mem off;
  b ← load mem (off + 1)%nat;
  c ← load mem (off + 2)%nat;
  d ← load mem (off + 3)%nat;
  Some (mkQ a b c d).

Definition write3 (mem : list F) (off : nat) (v : Vector3 F)
  : option (list F) :=
  mem ← store mem off (v3_0 v);
  mem ← store mem (off + 1)%nat (v3_1 v);
  store mem (off + 2)%nat (v3_2 v).

Definition write4 (mem : list F) (off : nat) (q : Quaternion F)
  : option (list F) :=
  mem ← store mem off (q_w q);
  mem ← store mem (off + 1)%nat (q_x q);
  mem ← store mem (off + 2)%nat (q_y q);
  store mem (off + 3)%nat (q_z q).

(** [memcpy] of [n] scalars out of [mem]. *)
Definition read_n (mem : list F) (off n : nat) : option (list F) :=
  let l := take n (drop off mem) in
  if decide (length l = n) then Some l else None.

(** [BALProblem::CameraToAngleAxisAndCenter]: the values left in
    [angle_axis] and [center]. *)
Definition CameraToAngleAxisAndCenter (p : BALProblem F)
    (mem : list F) (camera : nat) : option (Vector3 F * Vector3 F) :=
  angle_axis ←
    (if use_quaternions_ p
     then q ← read4 mem camera; Some (QuaternionToAngleAxis q)
     else read3 mem camera);
  let inverse_rotation := v3_neg angle_axis in
  t ← read3 mem (camera + Z.to_nat (camera_block_size p) - 6)%nat;
  let center := AngleAxisRotatePoint inverse_rotation t in
  Some (angle_axis, v3_scale center (- sc_one)).

(** [BALProblem::AngleAxisAndCenterToCamera]: the array [camera] points
    into, after the call. *)
Definition AngleAxisAndCenterToCamera (p : BALProblem F)
    (angle_axis center : Vector3 F) (mem : list F) (camera : nat)
  : option (list F) :=
  let t_off := (camera + Z.to_nat (camera_block_size p) - 6)%nat in
  mem ←
    (if use_quaternions_ p
     then write4 mem camera (AngleAxisToQuaternion angle_axis)
     else write3 mem camera angle_axis);
  mem ← write3 mem t_off (AngleAxisRotatePoint angle_axis center);
  t ← read3 mem t_off;
  write3 mem t_off (v3_scale t (- sc_one)).

(** The observation lines of [WriteToFile]. *)
Definition write_observation (p : BALProblem F) (i : nat)
    (out : list (item F)) : option (list (item F)) :=
  ci ← camera_index_ p !! i;
  pi ← point_index_ p !! i;
  for_range
    (fun j out => o ← load (observations_ p) (2 * i + j)%nat;
                  Some (out ++ [Double_g o]))
    0 2 (out ++ [Int ci; Int pi]).

(** The local array [angleaxis] once it is filled for camera [i]. *)
Definition angleaxis_of (p : BALProblem F) (i : Z) : option (list F) :=
  if decide (0 <= i)%Z then
    if use_quaternions_ p then
      q ← read4 (parameters_ p) (10 * Z.to_nat i)%nat;
      rest ← read_n (parameters_ p) (10 * Z.to_nat i + 4)%nat 6;
      let aa := QuaternionToAngleAxis q in
      Some ([v3_0 aa; v3_1 aa; v3_2 aa] ++ rest)
    else read_n (parameters_ p) (9 * Z.to_nat i)%nat 9
  else None.

(** [for (int j = 0; j < 9; ++i) fprintf(fptr, "%.16g\n", angleaxis[j])]:
    the test reads [j], the increment advances the [i] of the enclosing
    loop.  On exit the loop hands back [i] and the items written. *)
Fixpoint camera_inner_loop (fuel : nat) (angleaxis : list F) (i j : Z)
    (out : list (item F)) : outcome F (Z * list (item F)) :=
  match fuel with
  | O => OutOfFuel out
  | S fuel =>
    if decide (j < 9)%Z then
      match vector_at angleaxis j with
      | None => Undefined out
      | Some x =>
        let out := out ++ [Double_16g x] in
        if decide (i = INT_MAX) then Undefined out
        else camera_inner_loop fuel angleaxis (i + 1)%Z j out
      end
    else Done (i, out)
  end.

(** [for (int i = 0; i < num_cameras_; ++i) { ... }] of [WriteToFile]. *)
Fixpoint camera_loop (fuel : nat) (p : BALProblem F) (i : Z)
    (out : list (item F)) : outcome F (list (item F)) :=
  match fuel with
  | O => OutOfFuel out
  | S fuel =>
    if decide (i < num_cameras_ p)%Z then
      match angleaxis_of p i with
      | None => Undefined out
      | Some angleaxis =>
        match camera_inner_loop fuel angleaxis i 0 out with
        | Done (i, out) =>
          if decide (i = INT_MAX) then Undefined out
          else camera_loop fuel p (i + 1)%Z out
        | OutOfFuel out => OutOfFuel out
        | Undefined out => Undefined out
        end
      end
    else Done out
  end.

(** The point lines of [WriteToFile]. *)
Definition write_point (p : BALProblem F) (points : nat) (i : nat)
    (out : list (item F)) : option (list (item F)) :=
  let point := (points + i * Z.to_nat (point_block_size p))%nat in
  for_range
    (fun j out => x ← load (parameters_ p) (point + j)%nat;
                  Some (out ++ [Double_16g x]))
    0 (Z.to_nat (point_block_size p)) out.

Definition header (p : BALProblem F) : list (item F) :=
  [Int (num_cameras_ p); Int (num_cameras_ p); Int (num_points_ p);
   Int (num_observations_ p)].

(** [BALProblem::WriteToFile].  [fptr] tells whether [fopen] gave a
    stream; [fuel] bounds the number of loop steps observed. *)
Definition WriteToFile (fuel : nat) (p : BALProblem F) (fptr : bool)
  : outcome F (list (item F)) :=
  if fptr then
    let out := header p in
    match for_range (write_observation p) 0
                    (Z.to_nat (num_observations_ p)) out with
    | None => Undefined out
    | Some out =>
      match camera_loop fuel p 0 out with
      | Done out =>
        match points ← mutable_points p;
              for_range (write_point p points) 0
                        (Z.to_nat (num_points_ p)) out with
        | Some out => Done out
        | None => Undefined out
        end
      | OutOfFuel out => OutOfFuel out
      | Undefined out => Undefined out
      end
    end
  else Done [].

(** What is in the file when the run is observed. *)
Definition written_by {A : Type} (final : A -> list (item F))
    (r : outcome F A) : list (item F) :=
  match r with
  | Done a => final a
  | OutOfFuel out => out
  | Undefined out => out
  end.

(** [FscanfOrDie(fptr, "%d", &value)] on a file that starts with an
    integer item. *)
Definition FscanfOrDie_int (file : list (item F))
  : option (Z * list (item F)) :=
  match file with
  | Int z :: rest => Some (z, rest)
  | _ => None
  end.

(** The header read of the [BALProblem] constructor: three [%d], into
    [num_cameras_], [num_points_] and [num_observations_]; the rest of the
    file is what the later reads consume. *)
Definition BALProblem_read_header (file : list (item F))
  : option (Z * Z * Z * list (item F)) :=
  '(num_cameras, file) ← FscanfOrDie_int file;
  '(num_points, file) ← FscanfOrDie_int file;
  '(num_observations, file) ← FscanfOrDie_int file;
  Some (num_cameras, num_points, num_observations, file).

(** The three counts of a problem. *)
Definition counts (p : BALProblem F) : Z * Z * Z :=
  (num_cameras_ p, num_points_ p, num_observations_ p).

End Common.

(** ** A reference implementation of the Sophus interface

    [SO3d] holds a unit quaternion; the product is the Hamilton product
    and the action on a point is Eigen's [_transformVector].  It is generic
    in the scalar type, so the driver runs on [float]. *)

Section QuaternionOps.
Context {F : Type} `{Scalar F}.
Local Open Scope scalar_scope.

Definition q_identity : Quaternion F := mkQ sc_one sc_zero sc_zero sc_zero.

Definition q_vec (q : Quaternion F) : Vector3 F :=
  mkV3 (q_x q) (q_y q) (q_z q).

Definition q_mul (a b : Quaternion F) : Quaternion F :=
  mkQ (q_w a * q_w b - q_x a * q_x b - q_y a * q_y b - q_z a * q_z b)
      (q_w a * q_x b + q_x a * q_w b + q_y a * q_z b - q_z a * q_y b)
      (q_w a * q_y b + q_y a * q_w b + q_z a * q_x b - q_x a * q_z b)
      (q_w a * q_z b + q_z a * q_w b + q_x a * q_y b - q_y a * q_x b).

Definition q_transformVector (q : Quaternion F) (v : Vector3 F)
  : Vector3 F :=
  let uv := v3_cross (q_vec q) v in
  let uv := v3_add uv uv in
  v3_add (v3_add v (mkV3 (q_w q * v3_0 uv) (q_w q * v3_1 uv)
                         (q_w q * v3_2 uv)))
         (v3_cross (q_vec q) uv).


#[global] Instance SO3Group_quaternion : SO3Group F := {
  SO3d := Quaternion F;
  SO3_identity := q_identity;
  SO3_mul := q_mul;
  SO3_act := q_transformVector
}.

End QuaternionOps.

(** ** Exact arithmetic: the rotation functions over the reals

    The exponential and the logarithm of Sophus and the point rotation of
    [rotation.h] in the exact-arithmetic limit, where the small-angle
    thresholds are tests against zero.  The logarithm returns an angle in
    (-PI, PI].  These are the instances at which the statements about
    abstract rotation functions are shown to apply. *)

Module IdealSO3.
Local Open Scope R_scope.

Definition Rzerob (x : R) : bool :=
  if Req_dec_T x 0 then true else false.

Definition Rposb (x : R) : bool :=
  if Rlt_dec 0 x then true else false.

Definition exp (omega : Vector3 R) : Quaternion R :=
  let theta_sq := v3_squaredNorm omega in
  let theta := R_sqrt.sqrt theta_sq in
  let imag_factor :=
    if Rzerob theta_sq then 1 / 2 else sin (theta / 2) / theta in
  let real_factor :=
    if Rzerob theta_sq then 1 else cos (theta / 2) in
  mkQ real_factor (imag_factor * v3_0 omega) (imag_factor * v3_1 omega)
      (imag_factor * v3_2 omega).

Definition log (q : Quaternion R) : Vector3 R :=
  let squared_n := v3_squaredNorm (q_vec q) in
  let w := q_w q in
  let n := R_sqrt.sqrt squared_n in
  let two_atan_nbyw_by_n :=
    if Rzerob squared_n then 2 / w
    else if Rzerob w then (if Rposb w then PI / n else - PI / n)
    else 2 * atan (n / w) / n in
  mkV3 (two_atan_nbyw_by_n * q_x q) (two_atan_nbyw_by_n * q_y q)
       (two_atan_nbyw_by_n * q_z q).

#[global] Instance SO3ExpLog_R : SO3ExpLog R := {
  SO3_exp := exp;
  SO3_log := log
}.

Definition dot (a b : Vector3 R) : R :=
  v3_0 a * v3_0 b + v3_1 a * v3_1 b + v3_2 a * v3_2 b.

(** Rodrigues' formula for a unit axis [w], with the cosine and the sine
    of the angle. *)
Definition rodrigues (w pt : Vector3 R) (costheta sintheta : R)
  : Vector3 R :=
  let w_cross_pt := v3_cross w pt in
  let tmp := dot w pt * (1 - costheta) in
  mkV3 (v3_0 pt * costheta + v3_0 w_cross_pt * sintheta + v3_0 w * tmp)
       (v3_1 pt * costheta + v3_1 w_cross_pt * sintheta + v3_1 w * tmp)
       (v3_2 pt * costheta + v3_2 w_cross_pt * sintheta + v3_2 w * tmp).

(** The point [pt] turned about the axis [angle_axis] by the angle that
    is its norm. *)
Definition AngleAxisRotatePoint (angle_axis pt : Vector3 R) : Vector3 R :=
  let theta2 := dot angle_axis angle_axis in
  if Rzerob theta2 then v3_add pt (v3_cross angle_axis pt)
  else
    let theta := R_sqrt.sqrt theta2 in
    rodrigues (v3_scale angle_axis (1 / theta)) pt (cos theta) (sin theta).

(** Angle-axis to quaternion and back: the half-angle formulas, which are
    the exponential and the logarithm above. *)
Definition AngleAxisToQuaternion (angle_axis : Vector3 R) : Quaternion R :=
  exp angle_axis.

Definition QuaternionToAngleAxis (q : Quaternion R) : Vector3 R :=
  log q.

End IdealSO3.

(** ** Concrete inputs *)

(** A camera at the origin looking down its negative z-axis, unit focal
    length and [k1 = 1], and a point in front of it. *)
Definition camera_k1 : PoseAndIntrinsics float :=
  {| rotation := (SO3_identity : SO3d (F := float));
     translation := mkV3 0%float 0%float 0%float;
     focal := 1%float;
     k1 := 1%float;
     k2 := 0%float |}.

Definition point_front : Vector3 float := mkV3 1%float 2%float (-1)%float.

(** The graph of one camera and one point, both at the estimates of
    [setToOriginImpl], joined by one edge. *)
Definition origin_graph : Graph float :=
  {| vertex_pose_intrinsics :=
       [{| pose_id := 0; pose_estimate := setToOriginImpl_pose |}];
     vertex_points :=
       [{| point_id := 1; point_estimate := setToOriginImpl_point;
           point_marginalized := true |}];
     edges :=
       [{| _vertices_0 := 0; _vertices_1 := 0;
           _measurement := mkV2 0%float 0%float;
           _information := Matrix2_Identity;
           _robustKernel := Some RobustKernelHuber |}] |}.

Definition origin_edge : EdgeProjection float :=
  {| _vertices_0 := 0; _vertices_1 := 0;
     _measurement := mkV2 0%float 0%float;
     _information := Matrix2_Identity;
     _robustKernel := Some RobustKernelHuber |}.

(** One camera, one point, one observation. *)
Definition tiny_problem {F : Type} (zero one : F) : BALProblem F :=
  {| num_cameras_ := 1;
     num_points_ := 1;
     num_observations_ := 1;
     num_parameters_ := 12;
     use_quaternions_ := false;
     point_index_ := [0%Z];
     camera_index_ := [0%Z];
     observations_ := [zero; zero];
     parameters_ := [zero; zero; zero; zero; zero; zero; one; zero; zero;
                     zero; zero; one] |}.

(** One camera at the origin with unit focal length and [k1 = 1], the
    point (1, 2, -1) in front of it, observed at the pixel (1, 2). *)
Definition pixel_problem : BALProblem R :=
  {| num_cameras_ := 1;
     num_points_ := 1;
     num_observations_ := 1;
     num_parameters_ := 12;
     use_quaternions_ := false;
     point_index_ := [0%Z];
     camera_index_ := [0%Z];
     observations_ := [1; 2]%R;
     parameters_ := [0; 0; 0; 0; 0; 0; 1; 1; 0; 1; 2; - (1)]%R |}.




(** A stand-in for the iterations of g2o: in each of [n] iterations every
    camera vertex takes the increment [dc] and every point vertex the
    increment [dp], through their [oplusImpl]. *)
Section OplusAll.
Context {F : Type} `{Scalar F} `{SO3Group F} `{!SO3ExpLog F}.

Definition oplus_pose (dc : list F) (v : VertexPoseAndIntrinsics F)
  : VertexPoseAndIntrinsics F :=
  match oplusImpl (pose_estimate v) dc with
  | Some e => {| pose_id := pose_id v; pose_estimate := e |}
  | None => v
  end.

Definition oplus_point (dp : list F) (v : VertexPoint F) : VertexPoint F :=
  match oplusImpl_point (point_estimate v) dp with
  | Some e => {| point_id := point_id v; point_estimate := e;
                 point_marginalized := point_marginalized v |}
  | None => v
  end.

Definition oplus_once (dc dp : list F) (g : Graph F) : Graph F :=
  {| vertex_pose_intrinsics := oplus_pose dc <$> vertex_pose_intrinsics g;
     vertex_points := oplus_point dp <$> vertex_points g;
     edges := edges g |}.

Definition oplus_all (dc dp : list F) (n : nat) (g : Graph F) : Graph F :=
  Nat.iter n (oplus_once dc dp) g.

End OplusAll.

(** No camera, no point, no observation. *)
Definition empty_problem (F : Type) : BALProblem F :=
  {| num_cameras_ := 0;
     num_points_ := 0;
     num_observations_ := 0;
     num_parameters_ := 0;
     use_quaternions_ := false;
     point_index_ := [];
     camera_index_ := [];
     observations_ := [];
     parameters_ := [] |}.

(** No camera and no observation, one point. *)
Definition points_only_problem {F : Type} (x y z : F) : BALProblem F :=
  {| num_cameras_ := 0;
     num_points_ := 1;
     num_observations_ := 0;
     num_parameters_ := 3;
     use_quaternions_ := false;
     point_index_ := [];
     camera_index_ := [];
     observations_ := [];
     parameters_ := [x; y; z] |}.

(** ** [common.h]: the per-observation accessors *)

Section Accessors.
Context {F : Type}.

(** A pointer [base + delta] into an array of [size] scalars: it may
    point at an element or one past the last, anything else is
    undefined. *)
Definition pointer_add (size : nat) (base : nat) (delta : Z) : option nat :=
  if decide (0 <= Z.of_nat base + delta <= Z.of_nat size)%Z
  then Some (Z.to_nat (Z.of_nat base + delta)) else None.

(** [camera_for_observation(i)], and [mutable_camers_for_observation(i)]
    which computes the same address:
    [cameras() + camera_index_[i] * camera_block_size()]. *)
Definition camera_for_observation (p : BALProblem F) (i : Z) : option nat :=
  ci ← vector_at (camera_index_ p) i;
  cameras ← mutable_cameras p;
  pointer_add (length (parameters_ p)) cameras (ci * camera_block_size p).

(** [point_for_observation(i)], and [mutable_point_for_observation(i)]:
    [points() + point_index_[i] * point_block_size()]. *)
Definition point_for_observation (p : BALProblem F) (i : Z) : option nat :=
  pi ← vector_at (point_index_ p) i;
  points ← mutable_points p;
  pointer_add (length (parameters_ p)) points (pi * point_block_size p).

End Accessors.

(** ** [common.h]: the PLY writer *)

(** What [WriteToPLYFile] inserts into the stream, one item per [<<]: a
    string literal, the character ['\n'] (or [std::endl]), the character
    [' '], an [int], a [double]. *)
Inductive stream_item (F : Type) : Type :=
  | Put_string (s : string)
  | Put_newline
  | Put_space
  | Put_int (z : Z)
  | Put_double (x : F).

Arguments Put_string {F} _.
Arguments Put_newline {F}.
Arguments Put_space {F}.
Arguments Put_int {F} _.
Arguments Put_double {F} _.

Definition is_newline {F : Type} (o : stream_item F) : bool :=
  match o with Put_newline => true | _ => false end.

Definition is_double {F : Type} (o : stream_item F) : bool :=
  match o with Put_double _ => true | _ => false end.

Definition is_int {F : Type} (o : stream_item F) : bool :=
  match o with Put_int _ => true | _ => false end.

Definition is_string {F : Type} (o : stream_item F) : bool :=
  match o with Put_string _ => true | _ => false end.

(** How many items of a stream satisfy [f]. *)
Definition count {A : Type} (f : A -> bool) (l : list A) : nat :=
  length (List.filter f l).

Section PLY.
Context {F : Type} `{Scalar F}.
Variable AngleAxisRotatePoint : Vector3 F -> Vector3 F -> Vector3 F.
Variable QuaternionToAngleAxis : Quaternion F -> Vector3 F.

(** The value of the multi-character literal of the last insertion of the
    point loop, which is written between single quotes and so is an
    [int] whose value the compiler chooses. *)
Variable multichar_255_255_255 : Z.

Definition ply_header (p : BALProblem F) : list (stream_item F) :=
  [Put_string "ply"; Put_newline;
   Put_string "format ascii 1.0"; Put_newline;
   Put_string "element vertex ";
   Put_int (num_cameras_ p + num_points_ p); Put_newline;
   Put_string "property float x"; Put_newline;
   Put_string "property float y"; Put_newline;
   Put_string "property float z"; Put_newline;
   Put_string "property uchar red"; Put_newline;
   Put_string "property uchar green"; Put_newline;
   Put_string "property uchar blue"; Put_newline;
   Put_string "end_header"; Put_newline].

(** The camera loop: the centre of camera [i], as a green point. *)
Definition ply_camera (p : BALProblem F) (i : nat)
    (out : list (stream_item F)) : option (list (stream_item F)) :=
  cameras ← mutable_cameras p;
  let camera := (cameras + Z.to_nat (camera_block_size p) * i)%nat in
  '(angle_axis, center) ←
    CameraToAngleAxisAndCenter AngleAxisRotatePoint QuaternionToAngleAxis
      p (parameters_ p) camera;
  Some (out ++ [Put_double (v3_0 center); Put_space;
                Put_double (v3_1 center); Put_space;
                Put_double (v3_2 center); Put_string " 0 255 0";
                Put_newline]).

(** The point loop: three coordinates, each followed by a space, then the
    multi-character literal. *)
Definition ply_point (p : BALProblem F) (points : nat) (i : nat)
    (out : list (stream_item F)) : option (list (stream_item F)) :=
  let point := (points + i * Z.to_nat (point_block_size p))%nat in
  out ← for_range
          (fun j out => x ← load (parameters_ p) (point + j)%nat;
                        Some (out ++ [Put_double x; Put_space]))
          0 (Z.to_nat (point_block_size p)) out;
  Some (out ++ [Put_int multichar_255_255_255]).

(** [BALProblem::WriteToPLYFile]: the insertions into the stream. *)
Definition WriteToPLYFile (p : BALProblem F)
  : option (list (stream_item F)) :=
  out ← for_range (ply_camera p) 0 (Z.to_nat (num_cameras_ p))
                  (ply_header p);
  points ← mutable_points p;
  for_range (ply_point p points) 0 (Z.to_nat (num_points_ p)) out.

End PLY.

(** ** Proof automation for array reads and writes *)

Ltac load_ok :=
  match goal with
  | |- context [load ?m ?i] =>
    let x := fresh "x" in
    let Hx := fresh "Hx" in
    destruct (lookup_lt_is_Some_2 m i) as [x Hx]; [lia|];
    unfold load at 1; rewrite Hx; cbn [mbind option_bind]
  end.

Ltac insert_lookup :=
  repeat first
    [ rewrite list_lookup_insert_eq by (rewrite ?length_insert; lia)
    | rewrite list_lookup_insert_ne by lia ].

(** * Part II: lemmas and theorems *)

(** ** Loops and stores *)

Section MemoryFacts.
Context {F : Type}.
Implicit Types mem : list F.

Lemma store_Some mem i v :
  (i < length mem)%nat -> store mem i v = Some (<[i := v]> mem).
Proof. intros Hi. unfold store. by rewrite decide_True. Qed.

Lemma store_length mem i v mem' :
  store mem i v = Some mem' -> length mem' = length mem.
Proof.
  unfold store. case_decide; [|done].
  intros [= <-]. apply length_insert.
Qed.

(** A loop whose every step is defined runs to its end and carries an
    invariant along. *)
Lemma for_range_total {S : Type} (P : nat -> S -> Prop)
    (body : nat -> S -> option S) (count start : nat) (s : S) :
  P start s ->
  (forall i s, (start <= i < start + count)%nat -> P i s ->
     exists s', body i s = Some s' /\ P (Datatypes.S i) s') ->
  exists s', for_range body start count s = Some s'
             /\ P (start + count)%nat s'.
Proof.
  revert start s. induction count as [|k IH]; intros start s Hs Hstep.
  - exists s. split; [done|]. by rewrite Nat.add_0_r.
  - destruct (Hstep start s) as (s1 & Hb & Hs1); [lia|done|].
    destruct (IH (Datatypes.S start) s1) as (s' & Hr & Hs'); [done| |].
    + intros i t Hi. apply Hstep. lia.
    + exists s'. split.
      * simpl. rewrite Hb. exact Hr.
      * by replace (start + Datatypes.S k)%nat
          with (Datatypes.S start + k)%nat by lia.
Qed.

End MemoryFacts.

(** ** C1: the projection *)

Section ProjectExact.
Context `{G : SO3Group R}.
Local Open Scope R_scope.

(** In exact arithmetic, and at a non-zero depth, [project] is the
    distortion polynomial at the radius [x^2 + y^2 + 1]: the third
    coefficient of the divided vector is counted in [r2]. *)
Lemma project_exact (e : PoseAndIntrinsics R) (p : Vector3 R) :
  depth e p <> 0 -> project e p = project_r2_3d e p.
Proof.
  intros Hz. unfold depth in Hz.
  unfold project, project_r2_3d, v3_squaredNorm, v3_div, v3_neg; simpl.
  set (pc := v3_add (SO3_act (rotation e) p) (translation e)) in *.
  f_equal; field; exact Hz.
Qed.

(** Hence it differs from the specified projection exactly by the change
    of radius: with [k2 = 0] the two first coordinates differ by
    [focal * k1 * x]. *)
Lemma project_exact_gap (e : PoseAndIntrinsics R) (p : Vector3 R) :
  depth e p <> 0 -> k2 e = 0 ->
  v2_0 (project e p) - v2_0 (project_spec e p)
  = focal e * k1 e * (- v3_0 (v3_add (SO3_act (rotation e) p)
                                      (translation e)) / depth e p).
Proof.
  intros Hz Hk. rewrite project_exact by done.
  unfold depth in *. unfold project_r2_3d, project_spec; simpl.
  rewrite Hk. field. exact Hz.
Qed.

End ProjectExact.

(** C1, at a concrete input in binary64.  For the camera [camera_k1] and
    the point (1, 2, -1) the normalised image point is (1, 2), so the
    specified radius is [r^2 = 5] and the specified projection is (6, 12);
    [project] takes the squared norm of the whole vector (1, 2, -1),
    [r2 = 6], and returns (7, 14). *)
Theorem project_radius_counts_third_coefficient :
  project camera_k1 point_front = mkV2 7%float 14%float
  /\ project_spec camera_k1 point_front = mkV2 6%float 12%float
  /\ project camera_k1 point_front <> project_spec camera_k1 point_front.
Proof.
  assert (H1 : project camera_k1 point_front = mkV2 7%float 14%float)
    by (vm_compute; reflexivity).
  assert (H2 : project_spec camera_k1 point_front = mkV2 6%float 12%float)
    by (vm_compute; reflexivity).
  split; [exact H1|]. split; [exact H2|].
  rewrite H1, H2. intros Heq.
  apply (f_equal v2_0) in Heq. simpl in Heq.
  apply (f_equal (fun x => PrimFloat.eqb x 7%float)) in Heq.
  vm_compute in Heq. discriminate Heq.
Qed.

(** ** C2: the manifold update of the camera block *)

Section Oplus.
Context {F : Type} `{Scalar F} `{SO3Group F} `{!SO3ExpLog F}.
Local Open Scope scalar_scope.

(** C2.  [oplusImpl] is the specified update on every array, and on a
    9-vector [delta] it returns the estimate whose rotation is
    [exp(delta[0:3])] times the current rotation, on the left, and whose
    translation, focal, k1, k2 are the current ones plus [delta[3:6]],
    [delta[6]], [delta[7]], [delta[8]]. *)
Theorem oplusImpl_left_multiplicative (e : PoseAndIntrinsics F) :
  (forall delta : list F, oplusImpl e delta = applyUpdate_spec e delta)
  /\ (forall u0 u1 u2 u3 u4 u5 u6 u7 u8 : F,
        oplusImpl e [u0; u1; u2; u3; u4; u5; u6; u7; u8]
        = Some {| rotation := SO3_mul (SO3_exp (mkV3 u0 u1 u2)) (rotation e);
                  translation :=
                    mkV3 (v3_0 (translation e) + u3)
                         (v3_1 (translation e) + u4)
                         (v3_2 (translation e) + u5);
                  focal := focal e + u6;
                  k1 := k1 e + u7;
                  k2 := k2 e + u8 |}).
Proof.
  split; [|reflexivity].
  intros delta.
  do 9 (destruct delta as [|? delta]; [reflexivity|]).
  reflexivity.
Qed.

End Oplus.

(** ** C3: the raw round trip of the camera block *)

Section RawRoundTrip.
Context {F : Type} `{Scalar F} `{SO3Group F} `{!SO3ExpLog F}.

Lemma set_to_Some (e : PoseAndIntrinsics F) (mem : list F) (off : nat) :
  (off + 9 <= length mem)%nat ->
  set_to e mem off
  = Some (<[(off + 8)%nat := k2 e]>
         (<[(off + 7)%nat := k1 e]>
         (<[(off + 6)%nat := focal e]>
         (<[(off + 5)%nat := v3_2 (translation e)]>
         (<[(off + 4)%nat := v3_1 (translation e)]>
         (<[(off + 3)%nat := v3_0 (translation e)]>
         (<[(off + 2)%nat := v3_2 (SO3_log (rotation e))]>
         (<[(off + 1)%nat := v3_1 (SO3_log (rotation e))]>
         (<[off := v3_0 (SO3_log (rotation e))]> mem))))))))).
Proof.
  intros Hlen. unfold set_to.
  repeat (rewrite store_Some by (rewrite ?length_insert; lia); simpl).
  reflexivity.
Qed.

Lemma set_to_length (e : PoseAndIntrinsics F) (mem mem' : list F) off :
  set_to e mem off = Some mem' -> length mem' = length mem.
Proof.
  unfold set_to. intros Hs.
  repeat match type of Hs with
  | (_ ≫= _) = Some _ =>
    apply bind_Some in Hs as (? & ?%store_length & Hs)
  end.
  apply store_length in Hs. congruence.
Qed.

End RawRoundTrip.

Section IdealSO3Facts.
Import IdealSO3.
Local Open Scope R_scope.

Lemma Rzerob_0 : Rzerob 0 = true.
Proof. unfold Rzerob. destruct (Req_dec_T 0 0); [done | lra]. Qed.


Lemma Rzerob_false x : x <> 0 -> Rzerob x = false.
Proof. unfold Rzerob. by destruct (Req_dec_T x 0). Qed.

Lemma exp_zero : exp (mkV3 0 0 0) = mkQ 1 0 0 0.
Proof.
  unfold exp, v3_squaredNorm; simpl.
  replace (0 * 0 + 0 * 0 + 0 * 0) with 0 by lra.
  rewrite Rzerob_0. f_equal; lra.
Qed.

Lemma log_identity : log (mkQ 1 0 0 0) = mkV3 0 0 0.
Proof.
  unfold log, v3_squaredNorm; simpl.
  replace (0 * 0 + 0 * 0 + 0 * 0) with 0 by lra.
  rewrite Rzerob_0. f_equal; lra.
Qed.

Lemma log_exp_zero : log (exp (mkV3 0 0 0)) = mkV3 0 0 0.
Proof. rewrite exp_zero. apply log_identity. Qed.

(** On the branch of angles below PI the ideal logarithm undoes the ideal
    exponential. *)
Lemma log_exp_principal (v : Vector3 R) :
  R_sqrt.sqrt (v3_squaredNorm v) < PI -> log (exp v) = v.
Proof.
  destruct v as [a b c]. unfold v3_squaredNorm. cbn.
  intros Hpi.
  destruct (Req_dec_T (a * a + b * b + c * c) 0) as [Hz|Hnz].
  - assert (a = 0 /\ b = 0 /\ c = 0) as (-> & -> & ->) by nra.
    apply log_exp_zero.
  - assert (Hpos : 0 < a * a + b * b + c * c) by nra.
    unfold exp, v3_squaredNorm. cbn.
    rewrite (Rzerob_false _ Hnz).
    set (theta := R_sqrt.sqrt (a * a + b * b + c * c)) in *.
    assert (Ht : theta * theta = a * a + b * b + c * c)
      by (apply sqrt_sqrt; lra).
    assert (Htpos : 0 < theta) by (apply sqrt_lt_R0; lra).
    pose proof PI_RGT_0 as Hpi0.
    assert (Hs : 0 < sin (theta / 2)) by (apply sin_gt_0; lra).
    assert (Hc : 0 < cos (theta / 2)) by (apply cos_gt_0; lra).
    assert (Hatan : atan (sin (theta / 2) / cos (theta / 2)) = theta / 2).
    { change (sin (theta / 2) / cos (theta / 2)) with (tan (theta / 2)).
      apply atan_tan. lra. }
    unfold log, v3_squaredNorm, q_vec. cbn.
    set (s := sin (theta / 2)) in *. set (co := cos (theta / 2)) in *.
    assert (Hsq : s / theta * a * (s / theta * a)
                  + s / theta * b * (s / theta * b)
                  + s / theta * c * (s / theta * c) = s * s).
    { transitivity (s * s * (a * a + b * b + c * c) / (theta * theta)).
      - field. lra.
      - rewrite Ht. field. lra. }
    rewrite Hsq.
    rewrite (Rzerob_false (s * s)) by nra.
    rewrite (Rzerob_false co) by lra.
    rewrite sqrt_square by lra. rewrite Hatan.
    f_equal; field; lra.
Qed.

Lemma unit_angle_on_branch :
  R_sqrt.sqrt (v3_squaredNorm (mkV3 1 0 0)) < PI.
Proof.
  unfold v3_squaredNorm. cbn.
  replace (1 * 1 + 0 * 0 + 0 * 0) with 1 by lra.
  rewrite sqrt_1. pose proof PI2_1. lra.
Qed.

(** The update of C2 is not the addition of the increment to the raw
    rotation parameters: turning the camera of rotation vector (1, 0, 0)
    by the increment (0, 1, 0) does not give the camera of rotation vector
    (1, 1, 0). *)
Lemma oplusImpl_not_additive :
  exists e e' e'' : PoseAndIntrinsics R,
    PoseAndIntrinsics_of [1; 0; 0; 0; 0; 0; 1; 0; 0] 0 = Some e
    /\ oplusImpl e [0; 1; 0; 0; 0; 0; 0; 0; 0] = Some e'
    /\ PoseAndIntrinsics_of [1; 1; 0; 0; 0; 0; 1; 0; 0] 0 = Some e''
    /\ rotation e' <> rotation e''.
Proof.
  eexists _, _, _. split; [reflexivity|]. split; [reflexivity|].
  split; [reflexivity|].
  cbn. intros Heq. apply (f_equal q_z) in Heq. revert Heq.
  unfold exp, q_mul, v3_squaredNorm. cbn.
  replace (1 * 1 + 0 * 0 + 0 * 0) with 1 by lra.
  replace (0 * 0 + 1 * 1 + 0 * 0) with 1 by lra.
  rewrite (Rzerob_false 1) by lra.
  rewrite (Rzerob_false (1 * 1 + 1 * 1 + 0 * 0)) by lra.
  rewrite sqrt_1.
  assert (Hs : 0 < sin (1 / 2)).
  { apply sin_gt_0; pose proof PI2_1; lra. }
  intros Heq. nra.
Qed.






End IdealSO3Facts.



(** ** C4: a zero depth in binary64 *)

Section FloatNaN.
Local Open Scope float_scope.

Lemma add_nan_l (x : float) : nan + x = nan.
Proof. apply Prim2SF_inj. rewrite add_spec. reflexivity. Qed.

Lemma add_nan_r (x : float) : x + nan = nan.
Proof.
  apply Prim2SF_inj. rewrite add_spec.
  destruct (Prim2SF x); reflexivity.
Qed.

Lemma sub_nan_l (x : float) : nan - x = nan.
Proof. apply Prim2SF_inj. rewrite sub_spec. reflexivity. Qed.

Lemma mul_nan_l (x : float) : nan * x = nan.
Proof. apply Prim2SF_inj. rewrite mul_spec. reflexivity. Qed.

Lemma mul_nan_r (x : float) : x * nan = nan.
Proof.
  apply Prim2SF_inj. rewrite mul_spec.
  destruct (Prim2SF x); reflexivity.
Qed.

(** A float that compares equal to zero is one of the two zeros. *)
Lemma eqb_zero (d : float) :
  PrimFloat.eqb d 0 = true -> d = 0 \/ d = -0.
Proof.
  rewrite eqb_spec. intros Hd.
  rewrite <- (SF2Prim_Prim2SF d).
  destruct (Prim2SF d) as [[|]| [|] | |s m e]; try discriminate Hd.
  - right. reflexivity.
  - left. reflexivity.
  - destruct s; discriminate Hd.
Qed.

Lemma neg_div_zero (d : float) :
  PrimFloat.eqb d 0 = true -> (- d) / d = nan.
Proof. intros [-> | ->]%eqb_zero; reflexivity. Qed.

End FloatNaN.

Section ZeroDepth.
Context `{G : SO3Group float}.

Lemma project_nan_at_zero_depth (e : PoseAndIntrinsics float)
    (p : Vector3 float) :
  PrimFloat.eqb (depth e p) 0%float = true ->
  project e p = mkV2 nan nan.
Proof.
  unfold depth, project.
  generalize (v3_add (SO3_act (rotation e) p) (translation e)).
  intros [a b d] Hd. simpl in Hd.
  unfold v3_squaredNorm, v3_div, v3_neg; simpl.
  rewrite (neg_div_zero _ Hd).
  rewrite mul_nan_l, add_nan_r, mul_nan_l, add_nan_r, mul_nan_r, !mul_nan_l.
  reflexivity.
Qed.

(** C4, as the code has it.  [computeError] calls [project] without any
    test and [project] divides by the depth without any test: whatever
    the camera-frame depth of the point (positive, negative or zero), the
    error of the edge is computed, by the one formula, and nothing rejects
    the step or drops the observation.  When the depth compares equal to
    zero the division is a division by zero and, in binary64, both
    coordinates of the error are NaN, whatever the measurement. *)
Theorem computeError_nan_at_zero_depth (g : Graph float)
    (e : EdgeProjection float) (v0 : VertexPoseAndIntrinsics float)
    (v1 : VertexPoint float) :
  vertex_pose_intrinsics g !! _vertices_0 e = Some v0 ->
  vertex_points g !! _vertices_1 e = Some v1 ->
  computeError g e
  = Some (v2_sub (project (pose_estimate v0) (point_estimate v1))
                 (_measurement e))
  /\ (PrimFloat.eqb (depth (pose_estimate v0) (point_estimate v1)) 0%float
      = true ->
      computeError g e = Some (mkV2 nan nan)).
Proof.
  intros H0 H1.
  assert (He : computeError g e
               = Some (v2_sub (project (pose_estimate v0) (point_estimate v1))
                              (_measurement e))).
  { unfold computeError. by rewrite H0, H1. }
  split; [exact He|].
  intros Hd. rewrite He, (project_nan_at_zero_depth _ _ Hd).
  unfold v2_sub; simpl. by rewrite !sub_nan_l.
Qed.

End ZeroDepth.

(** The estimates of [setToOriginImpl]: the depth is zero and the error
    of the edge is NaN. *)
Lemma computeError_nan_at_zero_depth_witness :
  PrimFloat.eqb (depth (F := float) setToOriginImpl_pose
                       setToOriginImpl_point) 0%float = true
  /\ computeError origin_graph origin_edge = Some (mkV2 nan nan).
Proof.
  split; [reflexivity|].
  apply (computeError_nan_at_zero_depth origin_graph origin_edge
           {| pose_id := 0; pose_estimate := setToOriginImpl_pose |}
           {| point_id := 1; point_estimate := setToOriginImpl_point;
              point_marginalized := true |});
    reflexivity.
Defined.

(** C4 as stated fails: at the origin estimates the divisor of the
    perspective division is zero, and the reprojection is not finite. *)
Lemma project_divides_by_zero :
  depth (F := float) setToOriginImpl_pose setToOriginImpl_point = 0%float
  /\ project (F := float) setToOriginImpl_pose setToOriginImpl_point
     = mkV2 nan nan
  /\ ~ (forall (e : PoseAndIntrinsics float) (p : Vector3 float),
          PrimFloat.eqb (depth e p) 0%float = false).
Proof.
  split; [reflexivity|]. split; [reflexivity|].
  intros Hsafe.
  specialize (Hsafe setToOriginImpl_pose setToOriginImpl_point).
  vm_compute in Hsafe. discriminate Hsafe.
Qed.

(** ** C5 and C10: the text writer and the header *)

Section LoopFacts.
Context {S : Type}.

(** What holds before a loop and is kept by every defined step holds
    after it. *)
Lemma for_range_inv (P : nat -> S -> Prop) (body : nat -> S -> option S)
    (count start : nat) (s s' : S) :
  for_range body start count s = Some s' ->
  P start s ->
  (forall i s s1, (start <= i < start + count)%nat -> P i s ->
     body i s = Some s1 -> P (Datatypes.S i) s1) ->
  P (start + count)%nat s'.
Proof.
  revert start s. induction count as [|k IH]; intros start s Hr Hs Hstep.
  - simpl in Hr. injection Hr as <-. by rewrite Nat.add_0_r.
  - simpl in Hr. apply bind_Some in Hr as (s1 & Hb & Hr).
    replace (start + Datatypes.S k)%nat
      with (Datatypes.S start + k)%nat by lia.
    apply (IH (Datatypes.S start) s1 Hr).
    + apply (Hstep start s); [lia|done|done].
    + intros i t t1 Hi. apply Hstep. lia.
Qed.

End LoopFacts.

Section Writer.
Context {F : Type} `{Scalar F}.
Variable QuaternionToAngleAxis : Quaternion F -> Vector3 F.

Local Abbreviation WriteToFile := (WriteToFile QuaternionToAngleAxis).
Local Abbreviation camera_loop := (camera_loop QuaternionToAngleAxis).
Local Abbreviation angleaxis_of := (angleaxis_of QuaternionToAngleAxis).

(** The inner loop never leaves through its test: [j] stays below 9. *)
Lemma camera_inner_loop_not_Done fuel (angleaxis : list F) i j out r :
  (j < 9)%Z -> camera_inner_loop fuel angleaxis i j out <> Done r.
Proof.
  intros Hj. revert i out.
  induction fuel as [|fuel IH]; intros i out; simpl; [done|].
  rewrite decide_True by done.
  destruct (vector_at angleaxis j); [|done].
  case_decide; [done|]. apply IH.
Qed.

Lemma camera_loop_not_Done fuel (p : BALProblem F) i out r :
  (i < num_cameras_ p)%Z -> camera_loop fuel p i out <> Done r.
Proof.
  intros Hi. destruct fuel as [|fuel]; simpl; [done|].
  rewrite decide_True by done.
  destruct (angleaxis_of p i) as [aa|]; [|done].
  destruct (camera_inner_loop fuel aa i 0 out) as [[i' out']| |] eqn:E;
    [|done|done].
  by apply camera_inner_loop_not_Done in E.
Qed.

(** While [i] stays below [INT_MAX] every step of the inner loop prints
    [angleaxis[0]] again. *)
Lemma camera_inner_loop_prints (angleaxis : list F) x n i out :
  angleaxis !! 0%nat = Some x ->
  (i + Z.of_nat n <= INT_MAX)%Z ->
  camera_inner_loop n angleaxis i 0 out
  = OutOfFuel (out ++ replicate n (Double_16g x)).
Proof.
  intros Hx. revert i out.
  induction n as [|n IH]; intros i out Hi; simpl.
  - by rewrite app_nil_r.
  - replace (vector_at angleaxis 0) with (Some x) by done.
    rewrite decide_False by lia.
    rewrite IH by lia. by rewrite <- app_assoc.
Qed.

Lemma write_observation_total (p : BALProblem F) i out :
  BALProblem_wf p -> (i < Z.to_nat (num_observations_ p))%nat ->
  is_Some (write_observation p i out).
Proof.
  intros Hwf Hi. unfold write_observation.
  destruct (lookup_lt_is_Some_2 (camera_index_ p) i) as [ci ->].
  { pose proof (wf_camera_index_len p Hwf). lia. }
  destruct (lookup_lt_is_Some_2 (point_index_ p) i) as [pi ->].
  { pose proof (wf_point_index_len p Hwf). lia. }
  cbn [mbind option_bind].
  edestruct (for_range_total (S := list (item F)) (fun _ _ => True))
    as (s' & Hs' & _); [exact I| |rewrite Hs'; eauto].
  intros j s [_ Hj] _. unfold load.
  destruct (lookup_lt_is_Some_2 (observations_ p) (2 * i + j)) as [o ->].
  { pose proof (wf_observations_len p Hwf). lia. }
  simpl. eauto.
Qed.

Lemma angleaxis_of_first (p : BALProblem F) :
  BALProblem_wf p -> (1 <= num_cameras_ p)%Z ->
  exists aa x, angleaxis_of p 0 = Some aa /\ aa !! 0%nat = Some x.
Proof.
  intros Hwf Hc. unfold angleaxis_of.
  rewrite decide_True by done.
  pose proof (wf_parameters p Hwf) as Hlen.
  pose proof (wf_points p Hwf) as Hp.
  unfold camera_block_size in Hlen.
  change (Z.to_nat 0) with 0%nat.
  destruct (use_quaternions_ p).
  - destruct (parameters_ p) as [|a0 [|a1 [|a2 [|a3 l]]]] eqn:E;
      simpl in Hlen; try lia.
    cbn. unfold read_n. rewrite decide_True.
    + simpl. eexists _, _. split; reflexivity.
    + rewrite length_take, length_drop. cbn [length]. lia.
  - unfold read_n. rewrite decide_True.
    + destruct (parameters_ p) as [|a0 l]; simpl in Hlen; [lia|].
      simpl. eexists _, _. split; reflexivity.
    + rewrite length_take, length_drop. lia.
Qed.

(** C5.  With at least one camera the inner loop of the camera section is
    entered with [j = 0] and never changes [j]: once the file is open,
    [WriteToFile] does not return, whatever the number of steps it is
    given.  On a well-formed problem the loop really runs: after [n] more
    steps it has printed [angleaxis[0]] of the first camera [n] more
    times, for every [n] up to the point where [++i] overflows [int]. *)
Theorem WriteToFile_does_not_terminate (p : BALProblem F) :
  (1 <= num_cameras_ p)%Z ->
  (forall fuel out, WriteToFile fuel p true <> Done out)
  /\ (BALProblem_wf p ->
      exists pre aa x,
        angleaxis_of p 0 = Some aa /\ aa !! 0%nat = Some x
        /\ forall n, (Z.of_nat n <= INT_MAX)%Z ->
             WriteToFile (Datatypes.S n) p true
             = OutOfFuel (pre ++ replicate n (Double_16g x))).
Proof.
  intros Hc. split.
  - intros fuel out. unfold WriteToFile.
    destruct (for_range _ _ _ _) as [o|]; [|done].
    destruct (camera_loop fuel p 0 o) as [o'| |] eqn:E; [|done|done].
    apply camera_loop_not_Done in E; [done|lia].
  - intros Hwf.
    destruct (angleaxis_of_first p Hwf Hc) as (aa & x & Haa & Hx).
    destruct (for_range_total (fun _ _ => True) (write_observation p)
                (Z.to_nat (num_observations_ p)) 0 (header p) I)
      as (pre & Hpre & _).
    { intros i s Hi _.
      destruct (write_observation_total p i s Hwf) as [s' Hs']; [lia|].
      eauto. }
    exists pre, aa, x. split; [done|]. split; [done|].
    intros n Hn. unfold WriteToFile. rewrite Hpre. simpl.
    rewrite decide_True by lia. rewrite Haa.
    by rewrite (camera_inner_loop_prints aa x n 0 pre Hx) by lia.
Qed.

(** The writer only appends. *)
Lemma camera_inner_loop_extends fuel (angleaxis : list F) i j out :
  exists rest,
    written_by snd (camera_inner_loop fuel angleaxis i j out) = out ++ rest.
Proof.
  revert i out. induction fuel as [|fuel IH]; intros i out; simpl.
  - exists []. by rewrite app_nil_r.
  - case_decide; [|exists []; by rewrite app_nil_r].
    destruct (vector_at angleaxis j) as [x|];
      [|exists []; by rewrite app_nil_r].
    case_decide; [by eexists|].
    destruct (IH (i + 1)%Z (out ++ [Double_16g x])) as [rest ->].
    eexists. by rewrite <- app_assoc.
Qed.

Lemma camera_loop_extends fuel (p : BALProblem F) i out :
  exists rest, written_by (fun o => o) (camera_loop fuel p i out) = out ++ rest.
Proof.
  revert i out. induction fuel as [|fuel IH]; intros i out; simpl.
  - exists []. by rewrite app_nil_r.
  - case_decide; [|exists []; by rewrite app_nil_r].
    destruct (angleaxis_of p i) as [aa|];
      [|exists []; by rewrite app_nil_r].
    destruct (camera_inner_loop_extends fuel aa i 0 out) as [r1 Hr1].
    destruct (camera_inner_loop fuel aa i 0 out) as [[i' out']| |];
      simpl in Hr1; subst; [|by eexists|by eexists].
    case_decide; [by eexists|].
    destruct (IH (i' + 1)%Z (out ++ r1)) as [r2 ->].
    eexists. by rewrite <- app_assoc.
Qed.

Lemma for_range_extends (body : nat -> list (item F) -> option (list (item F)))
    count start out out' :
  (forall i o o', body i o = Some o' -> exists rest, o' = o ++ rest) ->
  for_range body start count out = Some out' ->
  exists rest, out' = out ++ rest.
Proof.
  intros Hbody Hr.
  apply (for_range_inv (fun _ o => exists rest, o = out ++ rest) _ _ _ _ _ Hr).
  - exists []. by rewrite app_nil_r.
  - intros i s s1 _ [rest ->] Hb.
    apply Hbody in Hb as [r ->].
    eexists. by rewrite <- app_assoc.
Qed.

Lemma write_observation_extends (p : BALProblem F) i out out' :
  write_observation p i out = Some out' -> exists rest, out' = out ++ rest.
Proof.
  unfold write_observation. intros Hw.
  apply bind_Some in Hw as (ci & _ & Hw).
  apply bind_Some in Hw as (pi & _ & Hw).
  apply for_range_extends in Hw as [rest ->].
  - eexists. by rewrite <- app_assoc.
  - intros j o o' Hb. apply bind_Some in Hb as (x & _ & [= <-]). by eexists.
Qed.

Lemma write_point_extends (p : BALProblem F) points i out out' :
  write_point p points i out = Some out' -> exists rest, out' = out ++ rest.
Proof.
  unfold write_point. apply for_range_extends.
  intros j o o' Hb. apply bind_Some in Hb as (x & _ & [= <-]). by eexists.
Qed.

(** Whatever the run, the file starts with the header. *)
Lemma WriteToFile_starts_with_header fuel (p : BALProblem F) :
  exists rest,
    written_by (fun o => o) (WriteToFile fuel p true) = header p ++ rest.
Proof.
  unfold WriteToFile.
  destruct (for_range (write_observation p) _ _ _) as [o1|] eqn:E1;
    [|exists []; by rewrite app_nil_r].
  apply for_range_extends in E1 as [r1 ->];
    [|apply write_observation_extends].
  destruct (camera_loop_extends fuel p 0 (header p ++ r1)) as [r2 Hr2].
  destruct (camera_loop fuel p 0 (header p ++ r1)) as [o2| |];
    cbn [written_by] in Hr2; subst.
  - destruct (mutable_points p) as [points|]; cbn [mbind option_bind].
    + destruct (for_range (write_point p points) _ _ _) as [o3|] eqn:E3.
      * apply for_range_extends in E3 as [r3 ->];
          [|apply write_point_extends].
        exists (r1 ++ r2 ++ r3). cbn [written_by]. by rewrite <- !app_assoc.
      * exists (r1 ++ r2). cbn [written_by]. by rewrite <- !app_assoc.
    + exists (r1 ++ r2). cbn [written_by]. by rewrite <- !app_assoc.
  - exists (r1 ++ r2). cbn [written_by]. by rewrite <- !app_assoc.
  - exists (r1 ++ r2). cbn [written_by]. by rewrite <- !app_assoc.
Qed.

End Writer.

(** The one-camera problem in binary64: the writer is still in the camera
    loop after four steps, having printed the first camera scalar three
    times. *)
Lemma WriteToFile_does_not_terminate_witness :
  (1 <= num_cameras_ (tiny_problem 0%float 1%float))%Z
  /\ (forall fuel out,
        WriteToFile q_vec fuel (tiny_problem 0%float 1%float) true
        <> Done out)
  /\ WriteToFile q_vec 4 (tiny_problem 0%float 1%float) true
     = OutOfFuel [Int 1; Int 1; Int 1; Int 1; Int 0; Int 0;
                  Double_g 0%float; Double_g 0%float;
                  Double_16g 0%float; Double_16g 0%float;
                  Double_16g 0%float].
Proof.
  assert (Hc : (1 <= num_cameras_ (tiny_problem 0%float 1%float))%Z)
    by (simpl; lia).
  split; [exact Hc|]. split; [|vm_compute; reflexivity].
  exact (proj1 (WriteToFile_does_not_terminate q_vec
                  (tiny_problem 0%float 1%float) Hc)).
Defined.

Section Header.
Context {F : Type} `{Scalar F}.
Variable QuaternionToAngleAxis : Quaternion F -> Vector3 F.

(** C10, as the code has it.  Whatever the run, the file starts with four
    integers, the camera count twice, then the point count and the
    observation count.  The constructor reads three: it takes the camera
    count, then the camera count again as the number of points, then the
    point count as the number of observations, and leaves the observation
    count in the file.  The counts read back are those of the written
    problem exactly when its three counts are equal. *)
Theorem header_read_back (fuel : nat) (p : BALProblem F) :
  exists rest,
    written_by (fun o => o) (WriteToFile QuaternionToAngleAxis fuel p true)
    = Int (num_cameras_ p) :: Int (num_cameras_ p) :: Int (num_points_ p)
      :: Int (num_observations_ p) :: rest
    /\ BALProblem_read_header
         (written_by (fun o => o)
            (WriteToFile QuaternionToAngleAxis fuel p true))
       = Some (num_cameras_ p, num_cameras_ p, num_points_ p,
               Int (num_observations_ p) :: rest)
    /\ ((num_cameras_ p, num_cameras_ p, num_points_ p) = counts p
        <-> num_cameras_ p = num_points_ p
            /\ num_points_ p = num_observations_ p).
Proof.
  destruct (WriteToFile_starts_with_header QuaternionToAngleAxis fuel p)
    as [rest Hw].
  exists rest. rewrite Hw. split; [reflexivity|]. split; [reflexivity|].
  unfold counts. split.
  - intros [= H1 H2]. split; congruence.
  - intros [H1 H2]. by rewrite <- H2, <- H1.
Qed.

End Header.

(** C10 as stated fails on the problem without cameras, points and
    observations: the writer returns, the file is the four-integer header,
    and the constructor reads back the counts of the written problem. *)
Lemma header_read_back_same_counts :
  WriteToFile q_vec 1 (empty_problem float) true
  = Done [Int 0; Int 0; Int 0; Int 0]
  /\ BALProblem_read_header [Int 0; Int 0; Int 0; Int 0]
     = Some (0%Z, 0%Z, 0%Z, [Int (F := float) 0])
  /\ counts (empty_problem float) = (0%Z, 0%Z, 0%Z)
  /\ ~ (forall (p : BALProblem float) fuel out c rest,
          WriteToFile q_vec fuel p true = Done out ->
          BALProblem_read_header out = Some (c, rest) ->
          c <> counts p).
Proof.
  split; [reflexivity|]. split; [reflexivity|]. split; [reflexivity|].
  intros Hdiff.
  apply (Hdiff (empty_problem float) 1%nat [Int 0; Int 0; Int 0; Int 0]
               (0%Z, 0%Z, 0%Z) [Int 0]); reflexivity.
Qed.

(** ** C6, C7, C8: the graph and the write-back of [SolveBA] *)

Section GraphFacts.
Context {F : Type} `{Scalar F} `{SO3Group F} `{!SO3ExpLog F}.
Implicit Types p : BALProblem F.

Lemma camera_block_size_cases p :
  Z.to_nat (camera_block_size p) = 9%nat
  \/ Z.to_nat (camera_block_size p) = 10%nat.
Proof. unfold camera_block_size. destruct (use_quaternions_ p); auto. Qed.

Lemma parameters_length p :
  BALProblem_wf p ->
  length (parameters_ p)
  = (Z.to_nat (camera_block_size p) * Z.to_nat (num_cameras_ p)
     + 3 * Z.to_nat (num_points_ p))%nat.
Proof.
  intros Hwf. pose proof (wf_parameters p Hwf) as Hlen.
  pose proof (wf_cameras p Hwf). pose proof (wf_points p Hwf).
  unfold camera_block_size in *. destruct (use_quaternions_ p); lia.
Qed.

Lemma mutable_points_wf p :
  BALProblem_wf p ->
  mutable_points p
  = Some (Z.to_nat (camera_block_size p) * Z.to_nat (num_cameras_ p))%nat.
Proof.
  intros Hwf. pose proof (wf_parameters p Hwf) as Hlen.
  pose proof (wf_cameras p Hwf). pose proof (wf_points p Hwf).
  unfold mutable_points, camera_block_size in *.
  destruct (use_quaternions_ p); rewrite decide_True by lia; f_equal; lia.
Qed.

Lemma PoseAndIntrinsics_of_total (mem : list F) (off : nat) :
  (off + 9 <= length mem)%nat -> is_Some (PoseAndIntrinsics_of mem off).
Proof.
  intros Hlen. unfold PoseAndIntrinsics_of.
  do 9 load_ok. eauto.
Qed.

(** The camera vertices: one per camera block, numbered from 0, holding
    the estimate read from its block. *)
Lemma camera_vertices_spec p :
  BALProblem_wf p ->
  exists cams,
    for_range (add_camera_vertex p 0) 0 (Z.to_nat (num_cameras_ p)) []
    = Some cams
    /\ length cams = Z.to_nat (num_cameras_ p)
    /\ forall k v, cams !! k = Some v ->
         pose_id v = Z.of_nat k
         /\ PoseAndIntrinsics_of (parameters_ p)
              (Z.to_nat (camera_block_size p) * k)
            = Some (pose_estimate v).
Proof.
  intros Hwf.
  destruct (for_range_total
    (fun i (vs : list (VertexPoseAndIntrinsics F)) =>
       length vs = i
       /\ forall k v, vs !! k = Some v ->
            pose_id v = Z.of_nat k
            /\ PoseAndIntrinsics_of (parameters_ p)
                 (Z.to_nat (camera_block_size p) * k)
               = Some (pose_estimate v))
    (add_camera_vertex p 0) (Z.to_nat (num_cameras_ p)) 0 [])
    as (cams & Hr & Hlen & Hcams).
  - split; [done|]. intros k v Hk. by rewrite lookup_nil in Hk.
  - intros i vs Hi [Hlen Hvs]. unfold add_camera_vertex.
    destruct (PoseAndIntrinsics_of_total (parameters_ p)
                (0 + Z.to_nat (camera_block_size p) * i)) as [e He].
    { rewrite (parameters_length p Hwf).
      destruct (camera_block_size_cases p) as [-> | ->]; lia. }
    rewrite He. cbn [mbind option_bind]. eexists. split; [done|].
    split; [rewrite length_app; simpl; lia|].
    intros k v [[Hk Hv] | [-> <-]]%lookup_snoc_Some; [by apply Hvs|].
    simpl. split; [lia|]. rewrite <- He. f_equal. lia.
  - exists cams. split; [done|]. split; [lia|done].
Qed.

(** The point vertices: one per point block, numbered after the cameras,
    marginalised, holding the three scalars of its block. *)
Lemma point_vertices_spec p :
  BALProblem_wf p ->
  exists pts,
    for_range
      (add_point_vertex p
         (Z.to_nat (camera_block_size p) * Z.to_nat (num_cameras_ p)))
      0 (Z.to_nat (num_points_ p)) []
    = Some pts
    /\ length pts = Z.to_nat (num_points_ p)
    /\ forall k v, pts !! k = Some v ->
         point_id v = (Z.of_nat k + num_cameras_ p)%Z
         /\ point_marginalized v = true
         /\ read3 (parameters_ p)
              (Z.to_nat (camera_block_size p) * Z.to_nat (num_cameras_ p)
               + 3 * k)
            = Some (point_estimate v).
Proof.
  intros Hwf.
  set (points := (Z.to_nat (camera_block_size p)
                  * Z.to_nat (num_cameras_ p))%nat).
  destruct (for_range_total
    (fun i (vs : list (VertexPoint F)) =>
       length vs = i
       /\ forall k v, vs !! k = Some v ->
            point_id v = (Z.of_nat k + num_cameras_ p)%Z
            /\ point_marginalized v = true
            /\ read3 (parameters_ p) (points + 3 * k) = Some (point_estimate v))
    (add_point_vertex p points) (Z.to_nat (num_points_ p)) 0 [])
    as (pts & Hr & Hlen & Hpts).
  - split; [done|]. intros k v Hk. by rewrite lookup_nil in Hk.
  - intros i vs Hi [Hlen Hvs]. unfold add_point_vertex, point_block_size.
    pose proof (parameters_length p Hwf) as Hp. fold points in Hp.
    change (Z.to_nat 3) with 3%nat.
    do 3 load_ok. eexists. split; [done|].
    split; [rewrite length_app; simpl; lia|].
    intros k v [[Hk Hv] | [-> <-]]%lookup_snoc_Some; [by apply Hvs|].
    cbn [point_id point_marginalized point_estimate].
    split; [lia|]. split; [done|].
    unfold read3, load. by rewrite Hlen, Hx, Hx0, Hx1.
  - exists pts. split; [done|]. split; [lia|done].
Qed.

(** The edges: one per observation, in order, between the vertices the
    observation names. *)
Lemma edges_spec p (cams : list (VertexPoseAndIntrinsics F))
    (pts : list (VertexPoint F)) :
  BALProblem_wf p ->
  length cams = Z.to_nat (num_cameras_ p) ->
  length pts = Z.to_nat (num_points_ p) ->
  exists es,
    for_range (add_edge p cams pts) 0 (Z.to_nat (num_observations_ p)) []
    = Some es
    /\ length es = Z.to_nat (num_observations_ p)
    /\ forall i, (i < Z.to_nat (num_observations_ p))%nat ->
         exists ci pi m0 m1,
           camera_index_ p !! i = Some ci
           /\ point_index_ p !! i = Some pi
           /\ (0 <= ci < num_cameras_ p)%Z
           /\ (0 <= pi < num_points_ p)%Z
           /\ observations_ p !! (2 * i)%nat = Some m0
           /\ observations_ p !! (2 * i + 1)%nat = Some m1
           /\ es !! i
              = Some {| _vertices_0 := Z.to_nat ci;
                        _vertices_1 := Z.to_nat pi;
                        _measurement := mkV2 m0 m1;
                        _information := Matrix2_Identity;
                        _robustKernel := Some RobustKernelHuber |}.
Proof.
  intros Hwf Hcams Hpts.
  destruct (for_range_total
    (fun n (es : list (EdgeProjection F)) =>
       length es = n
       /\ forall i, (i < n)%nat ->
            exists ci pi m0 m1,
              camera_index_ p !! i = Some ci
              /\ point_index_ p !! i = Some pi
              /\ (0 <= ci < num_cameras_ p)%Z
              /\ (0 <= pi < num_points_ p)%Z
              /\ observations_ p !! (2 * i)%nat = Some m0
              /\ observations_ p !! (2 * i + 1)%nat = Some m1
              /\ es !! i
                 = Some {| _vertices_0 := Z.to_nat ci;
                           _vertices_1 := Z.to_nat pi;
                           _measurement := mkV2 m0 m1;
                           _information := Matrix2_Identity;
                           _robustKernel := Some RobustKernelHuber |})
    (add_edge p cams pts) (Z.to_nat (num_observations_ p)) 0 [])
    as (es & Hr & Hlen & Hes).
  - split; [done|]. intros i Hi. lia.
  - intros i es Hi [Hlen Hes]. unfold add_edge.
    pose proof (wf_camera_index_len p Hwf) as Hcl.
    pose proof (wf_point_index_len p Hwf) as Hpl.
    pose proof (wf_observations_len p Hwf) as Hol.
    destruct (lookup_lt_is_Some_2 (camera_index_ p) i) as [ci Hci]; [lia|].
    destruct (lookup_lt_is_Some_2 (point_index_ p) i) as [pi Hpi]; [lia|].
    pose proof (proj1 (Forall_lookup _ _) (wf_camera_index p Hwf) _ _ Hci)
      as Hcr.
    pose proof (proj1 (Forall_lookup _ _) (wf_point_index p Hwf) _ _ Hpi)
      as Hpr.
    simpl in Hcr, Hpr.
    destruct (lookup_lt_is_Some_2 cams (Z.to_nat ci)) as [v0 Hv0]; [lia|].
    destruct (lookup_lt_is_Some_2 pts (Z.to_nat pi)) as [v1 Hv1]; [lia|].
    destruct (lookup_lt_is_Some_2 (observations_ p) (2 * i + 0))
      as [m0 Hm0]; [lia|].
    destruct (lookup_lt_is_Some_2 (observations_ p) (2 * i + 1))
      as [m1 Hm1]; [lia|].
    rewrite Hci. cbn [mbind option_bind].
    unfold vector_at. rewrite decide_True by lia.
    rewrite Hv0, Hpi. cbn [mbind option_bind].
    rewrite decide_True by lia. rewrite Hv1. cbn [mbind option_bind].
    unfold load. rewrite Hm0, Hm1. cbn [mbind option_bind].
    eexists. split; [done|].
    split; [rewrite length_app; simpl; lia|].
    intros k Hk. destruct (decide (k = i)) as [->|Hne].
    + exists ci, pi, m0, m1.
      rewrite Nat.add_0_r in Hm0.
      repeat (split; [done|]).
      apply list_lookup_middle. done.
    + destruct (Hes k) as (ci' & pi' & m0' & m1' & ? & ? & ? & ? & ? & ? & He);
        [lia|].
      exists ci', pi', m0', m1'. repeat (split; [done|]).
      rewrite lookup_app_l by lia. done.
  - exists es. split; [done|]. split; [lia|done].
Qed.

(** The graph [SolveBA] hands to g2o. *)
Lemma build_graph_spec p :
  BALProblem_wf p ->
  exists g,
    build_graph p = Some g
    /\ length (vertex_pose_intrinsics g) = Z.to_nat (num_cameras_ p)
    /\ length (vertex_points g) = Z.to_nat (num_points_ p)
    /\ length (edges g) = Z.to_nat (num_observations_ p)
    /\ (forall k v, vertex_pose_intrinsics g !! k = Some v ->
          pose_id v = Z.of_nat k
          /\ PoseAndIntrinsics_of (parameters_ p)
               (Z.to_nat (camera_block_size p) * k)
             = Some (pose_estimate v))
    /\ (forall k v, vertex_points g !! k = Some v ->
          point_id v = (Z.of_nat k + num_cameras_ p)%Z
          /\ point_marginalized v = true
          /\ read3 (parameters_ p)
               (Z.to_nat (camera_block_size p) * Z.to_nat (num_cameras_ p)
                + 3 * k)
             = Some (point_estimate v))
    /\ (forall i, (i < Z.to_nat (num_observations_ p))%nat ->
          exists ci pi m0 m1,
            camera_index_ p !! i = Some ci
            /\ point_index_ p !! i = Some pi
            /\ (0 <= ci < num_cameras_ p)%Z
            /\ (0 <= pi < num_points_ p)%Z
            /\ observations_ p !! (2 * i)%nat = Some m0
            /\ observations_ p !! (2 * i + 1)%nat = Some m1
            /\ edges g !! i
               = Some {| _vertices_0 := Z.to_nat ci;
                         _vertices_1 := Z.to_nat pi;
                         _measurement := mkV2 m0 m1;
                         _information := Matrix2_Identity;
                         _robustKernel := Some RobustKernelHuber |}).
Proof.
  intros Hwf. unfold build_graph.
  rewrite (mutable_points_wf p Hwf). unfold mutable_cameras.
  cbn [mbind option_bind].
  destruct (camera_vertices_spec p Hwf) as (cams & Hc & Hcl & Hcams).
  destruct (point_vertices_spec p Hwf) as (pts & Hp & Hpl & Hpts).
  destruct (edges_spec p cams pts Hwf Hcl Hpl) as (es & He & Hel & Hes).
  rewrite Hc. cbn [mbind option_bind].
  rewrite Hp. cbn [mbind option_bind].
  rewrite He. cbn [mbind option_bind].
  eexists. split; [done|]. simpl.
  repeat (split; [done|]). done.
Qed.

End GraphFacts.

Section GraphTheorems.
Context {F : Type} `{Scalar F} `{SO3Group F} `{!SO3ExpLog F}.
Implicit Types p : BALProblem F.

(** C7.  On a well-formed problem [SolveBA] builds its graph, with as many
    edges as observations; the edge of observation [i] joins the camera
    vertex at position (and of id) [camera_index[i]] and the point vertex
    at position [point_index[i]] (of id [point_index[i] + num_cameras]),
    carries the measurement of the observation, the 2x2 identity as
    information matrix and a Huber kernel. *)
Theorem one_edge_per_observation p :
  BALProblem_wf p ->
  exists g,
    build_graph p = Some g
    /\ length (edges g) = Z.to_nat (num_observations_ p)
    /\ forall i, (i < Z.to_nat (num_observations_ p))%nat ->
         exists ci pi m0 m1 v0 v1,
           camera_index_ p !! i = Some ci
           /\ point_index_ p !! i = Some pi
           /\ observations_ p !! (2 * i)%nat = Some m0
           /\ observations_ p !! (2 * i + 1)%nat = Some m1
           /\ edges g !! i
              = Some {| _vertices_0 := Z.to_nat ci;
                        _vertices_1 := Z.to_nat pi;
                        _measurement := mkV2 m0 m1;
                        _information := mkM2 sc_one sc_zero sc_zero sc_one;
                        _robustKernel := Some RobustKernelHuber |}
           /\ vertex_pose_intrinsics g !! Z.to_nat ci = Some v0
           /\ pose_id v0 = ci
           /\ vertex_points g !! Z.to_nat pi = Some v1
           /\ point_id v1 = (pi + num_cameras_ p)%Z.
Proof.
  intros Hwf.
  destruct (build_graph_spec p Hwf)
    as (g & Hg & Hcl & Hpl & Hel & Hcams & Hpts & Hes).
  exists g. split; [done|]. split; [done|].
  intros i Hi.
  destruct (Hes i Hi) as (ci & pi & m0 & m1 & Hci & Hpi & Hcr & Hpr
                          & Hm0 & Hm1 & He).
  destruct (lookup_lt_is_Some_2 (vertex_pose_intrinsics g) (Z.to_nat ci))
    as [v0 Hv0]; [lia|].
  destruct (lookup_lt_is_Some_2 (vertex_points g) (Z.to_nat pi))
    as [v1 Hv1]; [lia|].
  exists ci, pi, m0, m1, v0, v1.
  repeat (split; [done|]).
  destruct (Hcams _ _ Hv0) as [Hid0 _].
  destruct (Hpts _ _ Hv1) as [Hid1 _].
  split; [lia|]. split; [done|]. lia.
Qed.

Local Open Scope scalar_scope.

(** C6.  On the graph of a well-formed problem, and in every later state
    of it that has the same edges and as many vertices (only estimates
    have changed), the error of the edge of observation [i] is, coefficient
    by coefficient, the projection of the current estimate of its point by
    the current estimate of its camera less the measured pixel
    [(observations[2i], observations[2i+1])]. *)
Theorem computeError_is_projection_minus_measurement p :
  BALProblem_wf p ->
  exists g,
    build_graph p = Some g
    /\ forall g',
         edges g' = edges g ->
         length (vertex_pose_intrinsics g')
         = length (vertex_pose_intrinsics g) ->
         length (vertex_points g') = length (vertex_points g) ->
         forall i, (i < Z.to_nat (num_observations_ p))%nat ->
           exists e ci pi m0 m1 v0 v1,
             edges g' !! i = Some e
             /\ camera_index_ p !! i = Some ci
             /\ point_index_ p !! i = Some pi
             /\ observations_ p !! (2 * i)%nat = Some m0
             /\ observations_ p !! (2 * i + 1)%nat = Some m1
             /\ vertex_pose_intrinsics g' !! Z.to_nat ci = Some v0
             /\ vertex_points g' !! Z.to_nat pi = Some v1
             /\ computeError g' e
                = Some (mkV2
                          (v2_0 (project (pose_estimate v0)
                                         (point_estimate v1)) - m0)
                          (v2_1 (project (pose_estimate v0)
                                         (point_estimate v1)) - m1)).
Proof.
  intros Hwf.
  destruct (build_graph_spec p Hwf)
    as (g & Hg & Hcl & Hpl & Hel & Hcams & Hpts & Hes).
  exists g. split; [done|].
  intros g' Hedges Hcl' Hpl' i Hi.
  destruct (Hes i Hi) as (ci & pi & m0 & m1 & Hci & Hpi & Hcr & Hpr
                          & Hm0 & Hm1 & He).
  destruct (lookup_lt_is_Some_2 (vertex_pose_intrinsics g') (Z.to_nat ci))
    as [v0 Hv0]; [lia|].
  destruct (lookup_lt_is_Some_2 (vertex_points g') (Z.to_nat pi))
    as [v1 Hv1]; [lia|].
  eexists _, ci, pi, m0, m1, v0, v1.
  rewrite Hedges. split; [exact He|].
  repeat (split; [done|]).
  unfold computeError. cbn [_vertices_0 _vertices_1 _measurement].
  by rewrite Hv0, Hv1.
Qed.
End GraphTheorems.

Section WriteBack.
Context {F : Type} `{Scalar F} `{SO3Group F} `{!SO3ExpLog F}.
Implicit Types p : BALProblem F.

(** [set_to] overwrites nine scalars with the raw image of the estimate
    and leaves every other scalar alone. *)
Lemma set_to_spec (e : PoseAndIntrinsics F) (mem : list F) (off : nat) :
  (off + 9 <= length mem)%nat ->
  exists mem',
    set_to e mem off = Some mem'
    /\ length mem' = length mem
    /\ (forall j, (j < 9)%nat ->
          mem' !! (off + j)%nat = toRaw_spec e !! j)
    /\ (forall i, (i < off \/ off + 9 <= i)%nat -> mem' !! i = mem !! i).
Proof.
  intros Hlen. eexists. split; [by apply set_to_Some|].
  split; [by rewrite !length_insert|]. split.
  - intros j Hj.
    do 9 (destruct j as [|j];
          [rewrite ?Nat.add_0_r; insert_lookup; reflexivity|]).
    lia.
  - intros i Hi. by insert_lookup.
Qed.

Lemma save_point_spec p (g : Graph F) (points j : nat) (mem : list F)
    (v : VertexPoint F) :
  vertex_points g !! j = Some v ->
  (points + 3 * j + 3 <= length mem)%nat ->
  exists mem',
    save_point p g points j mem = Some mem'
    /\ length mem' = length mem
    /\ read3 mem' (points + 3 * j) = Some (point_estimate v)
    /\ (forall i, (i < points + 3 * j \/ points + 3 * j + 3 <= i)%nat ->
          mem' !! i = mem !! i).
Proof.
  intros Hv Hlen. unfold save_point, point_block_size.
  change (Z.to_nat 3) with 3%nat. rewrite Hv. cbn [mbind option_bind].
  repeat (rewrite store_Some by (rewrite ?length_insert; lia);
          cbn [mbind option_bind]).
  eexists. split; [done|].
  split; [by rewrite !length_insert|]. split.
  - unfold read3, load. rewrite Nat.add_0_r.
    insert_lookup. cbn [mbind option_bind].
    insert_lookup. cbn [mbind option_bind].
    insert_lookup. cbn [mbind option_bind].
    by destruct (point_estimate v).
  - intros i Hi. by insert_lookup.
Qed.

(** The first write-back loop. *)
Lemma save_cameras_spec p (g : Graph F) :
  BALProblem_wf p ->
  length (vertex_pose_intrinsics g) = Z.to_nat (num_cameras_ p) ->
  exists mem,
    for_range (save_camera p g 0) 0 (Z.to_nat (num_cameras_ p))
              (parameters_ p) = Some mem
    /\ length mem = length (parameters_ p)
    /\ (forall k v j, vertex_pose_intrinsics g !! k = Some v ->
          (j < 9)%nat ->
          mem !! (Z.to_nat (camera_block_size p) * k + j)%nat
          = toRaw_spec (pose_estimate v) !! j)
    /\ (forall i,
          (Z.to_nat (camera_block_size p) * Z.to_nat (num_cameras_ p)
           <= i)%nat ->
          mem !! i = parameters_ p !! i).
Proof.
  intros Hwf Hcl.
  pose proof (parameters_length p Hwf) as Hpl.
  set (c := Z.to_nat (camera_block_size p)) in *.
  assert (Hc : c = 9%nat \/ c = 10%nat) by apply camera_block_size_cases.
  destruct (for_range_total
    (fun n (mem : list F) =>
       length mem = length (parameters_ p)
       /\ (forall k v j, (k < n)%nat ->
             vertex_pose_intrinsics g !! k = Some v -> (j < 9)%nat ->
             mem !! (c * k + j)%nat = toRaw_spec (pose_estimate v) !! j)
       /\ (forall i, (c * n <= i)%nat -> mem !! i = parameters_ p !! i))
    (save_camera p g 0) (Z.to_nat (num_cameras_ p)) 0 (parameters_ p))
    as (mem & Hr & Hlen & Hblocks & Hrest).
  - split; [done|]. split; [intros; lia|done].
  - intros i mem Hi (Hlen & Hblocks & Hrest). unfold save_camera.
    fold c. destruct (lookup_lt_is_Some_2 (vertex_pose_intrinsics g) i)
      as [v Hv]; [lia|].
    rewrite Hv. cbn [mbind option_bind].
    destruct (set_to_spec (pose_estimate v) mem (0 + c * i))
      as (mem' & Hs & Hlen' & Hnew & Hold).
    { destruct Hc as [-> | ->]; lia. }
    exists mem'. split; [done|]. split; [lia|]. split.
    + intros k w j Hk Hw Hj. destruct (decide (k = i)) as [->|Hne].
      * assert (w = v) as -> by congruence. by apply Hnew.
      * rewrite Hold by (destruct Hc as [-> | ->]; lia).
        apply Hblocks; [lia|done|done].
    + intros idx Hidx.
      rewrite Hold by (destruct Hc as [-> | ->]; lia).
      apply Hrest. destruct Hc as [-> | ->]; lia.
  - exists mem. split; [done|]. split; [done|]. split.
    + intros k v j Hv Hj. apply Hblocks; [|done|done].
      apply lookup_lt_Some in Hv. lia.
    + intros i Hi. apply Hrest. lia.
Qed.

(** The second write-back loop. *)
Lemma save_points_spec p (g : Graph F) (mem0 : list F) :
  BALProblem_wf p ->
  length mem0 = length (parameters_ p) ->
  length (vertex_points g) = Z.to_nat (num_points_ p) ->
  exists mem,
    for_range
      (save_point p g
         (Z.to_nat (camera_block_size p) * Z.to_nat (num_cameras_ p)))
      0 (Z.to_nat (num_points_ p)) mem0 = Some mem
    /\ length mem = length mem0
    /\ (forall k v, vertex_points g !! k = Some v ->
          read3 mem
            (Z.to_nat (camera_block_size p) * Z.to_nat (num_cameras_ p)
             + 3 * k)
          = Some (point_estimate v))
    /\ (forall i,
          (i < Z.to_nat (camera_block_size p)
               * Z.to_nat (num_cameras_ p))%nat ->
          mem !! i = mem0 !! i).
Proof.
  intros Hwf Hlen0 Hpl.
  pose proof (parameters_length p Hwf) as Hparams.
  set (points := (Z.to_nat (camera_block_size p)
                  * Z.to_nat (num_cameras_ p))%nat) in *.
  destruct (for_range_total
    (fun n (mem : list F) =>
       length mem = length mem0
       /\ (forall k v, (k < n)%nat -> vertex_points g !! k = Some v ->
             read3 mem (points + 3 * k) = Some (point_estimate v))
       /\ (forall i, (i < points)%nat -> mem !! i = mem0 !! i))
    (save_point p g points) (Z.to_nat (num_points_ p)) 0 mem0)
    as (mem & Hr & Hlen & Hblocks & Hrest).
  - split; [done|]. split; [intros; lia|done].
  - intros j mem Hj (Hlen & Hblocks & Hrest).
    destruct (lookup_lt_is_Some_2 (vertex_points g) j) as [v Hv]; [lia|].
    destruct (save_point_spec p g points j mem v Hv)
      as (mem' & Hs & Hlen' & Hnew & Hold); [lia|].
    exists mem'. split; [done|]. split; [lia|]. split.
    + intros k w Hk Hw. destruct (decide (k = j)) as [->|Hne].
      * assert (w = v) as -> by congruence. done.
      * rewrite <- (Hblocks k w) by (lia || done).
        unfold read3, load. by rewrite !Hold by lia.
    + intros i Hi. rewrite Hold by lia. by apply Hrest.
  - exists mem. split; [done|]. split; [done|]. split.
    + intros k v Hv. apply Hblocks; [|done].
      apply lookup_lt_Some in Hv. lia.
    + done.
Qed.

End WriteBack.

Section SolveBATheorem.
Context {F : Type} `{Scalar F} `{SO3Group F} `{!SO3ExpLog F}.
Implicit Types p : BALProblem F.

(** C8.  On a well-formed problem, and with an optimizer that neither
    adds nor removes vertices, [SolveBA] returns.  The optimized graph
    has one camera vertex per camera and one point vertex per point; in
    the parameter array [SolveBA] leaves, for every camera [i] the first
    nine scalars of its block are the logarithm of the rotation, the
    translation, focal, k1 and k2 of camera vertex [i], and for every
    point [j] its three scalars are the position of point vertex [j].
    The array keeps its size, and the counts, the mode flag, the
    observations and the two index arrays are those of the input. *)
Theorem SolveBA_writes_estimates_back
    (optimize : nat -> Graph F -> Graph F) p :
  BALProblem_wf p ->
  (forall n g,
     length (vertex_pose_intrinsics (optimize n g))
     = length (vertex_pose_intrinsics g)
     /\ length (vertex_points (optimize n g)) = length (vertex_points g)) ->
  exists g p',
    build_graph p = Some g
    /\ SolveBA optimize p = Some p'
    /\ length (vertex_pose_intrinsics (optimize 40%nat g))
       = Z.to_nat (num_cameras_ p)
    /\ length (vertex_points (optimize 40%nat g))
       = Z.to_nat (num_points_ p)
    /\ (forall i, (i < Z.to_nat (num_cameras_ p))%nat ->
          exists v,
            vertex_pose_intrinsics (optimize 40%nat g) !! i = Some v
            /\ forall j, (j < 9)%nat ->
                 parameters_ p'
                   !! (Z.to_nat (camera_block_size p) * i + j)%nat
                 = [v3_0 (SO3_log (rotation (pose_estimate v)));
                    v3_1 (SO3_log (rotation (pose_estimate v)));
                    v3_2 (SO3_log (rotation (pose_estimate v)));
                    v3_0 (translation (pose_estimate v));
                    v3_1 (translation (pose_estimate v));
                    v3_2 (translation (pose_estimate v));
                    focal (pose_estimate v);
                    k1 (pose_estimate v);
                    k2 (pose_estimate v)] !! j)
    /\ (forall j, (j < Z.to_nat (num_points_ p))%nat ->
          exists v,
            vertex_points (optimize 40%nat g) !! j = Some v
            /\ forall k, (k < 3)%nat ->
                 parameters_ p'
                   !! (Z.to_nat (camera_block_size p)
                       * Z.to_nat (num_cameras_ p) + 3 * j + k)%nat
                 = [v3_0 (point_estimate v); v3_1 (point_estimate v);
                    v3_2 (point_estimate v)] !! k)
    /\ length (parameters_ p') = length (parameters_ p)
    /\ observations_ p' = observations_ p
    /\ camera_index_ p' = camera_index_ p
    /\ point_index_ p' = point_index_ p
    /\ counts p' = counts p
    /\ num_parameters_ p' = num_parameters_ p
    /\ use_quaternions_ p' = use_quaternions_ p.
Proof.
  intros Hwf Hopt.
  destruct (build_graph_spec p Hwf) as (g & Hg & Hcl & Hpl & _).
  destruct (Hopt 40%nat g) as [Hcl' Hpl'].
  set (g' := optimize 40%nat g) in *.
  destruct (save_cameras_spec p g' Hwf) as (mem1 & Hr1 & Hlen1 & Hc1 & _);
    [lia|].
  destruct (save_points_spec p g' mem1 Hwf Hlen1)
    as (mem2 & Hr2 & Hlen2 & Hp2 & Hkeep); [lia|].
  exists g. eexists. split; [done|]. split.
  - unfold SolveBA. rewrite (mutable_points_wf p Hwf). unfold mutable_cameras.
    cbn [mbind option_bind]. rewrite Hg. cbn [mbind option_bind].
    fold g'. rewrite Hr1. cbn [mbind option_bind].
    rewrite Hr2. cbn [mbind option_bind]. reflexivity.
  - cbn [parameters_ observations_ camera_index_ point_index_ counts
         num_cameras_ num_points_ num_observations_ num_parameters_
         use_quaternions_].
    fold g'. split; [lia|]. split; [lia|]. split.
    { intros i Hi.
      destruct (lookup_lt_is_Some_2 (vertex_pose_intrinsics g') i)
        as [v Hv]; [lia|].
      exists v. split; [done|]. intros j Hj.
      rewrite Hkeep; [by apply Hc1|].
      destruct (camera_block_size_cases p) as [-> | ->]; lia. }
    split.
    { intros j Hj.
      destruct (lookup_lt_is_Some_2 (vertex_points g') j) as [v Hv]; [lia|].
      exists v. split; [done|]. intros k Hk.
      pose proof (Hp2 j v Hv) as Hread.
      unfold read3, load in Hread.
      apply bind_Some in Hread as (a & Ha & Hread).
      apply bind_Some in Hread as (b & Hb & Hread).
      apply bind_Some in Hread as (c & Hc & [= Hest]).
      rewrite <- Hest. cbn [v3_0 v3_1 v3_2].
      destruct k as [|[|[|k]]]; [| | |lia]; cbn [lookup list_lookup].
      - by rewrite Nat.add_0_r.
      - done.
      - done. }
    split; [lia|]. done.
Qed.

End SolveBATheorem.

Section ConcreteProblems.
Context {F : Type} `{Scalar F} `{SO3Group F} `{!SO3ExpLog F}.

Lemma tiny_problem_wf (zero one : F) : BALProblem_wf (tiny_problem zero one).
Proof.
  split; simpl; try lia.
  - reflexivity.
  - constructor; [lia | constructor].
  - constructor; [lia | constructor].
Qed.

Lemma oplus_all_lengths (dc dp : list F) n (g : Graph F) :
  length (vertex_pose_intrinsics (oplus_all dc dp n g))
  = length (vertex_pose_intrinsics g)
  /\ length (vertex_points (oplus_all dc dp n g)) = length (vertex_points g).
Proof.
  unfold oplus_all. induction n as [|n [IH1 IH2]]; [done|].
  simpl. by rewrite !length_fmap.
Qed.

End ConcreteProblems.

(** The one-camera problem over the reals has a graph with one edge. *)
Lemma one_edge_per_observation_witness :
  BALProblem_wf (tiny_problem 0%R 1%R)
  /\ exists g : Graph R,
       build_graph (tiny_problem 0%R 1%R) = Some g /\ length (edges g) = 1%nat.
Proof.
  split; [apply tiny_problem_wf|].
  destruct (one_edge_per_observation (tiny_problem 0%R 1%R)
              (tiny_problem_wf 0%R 1%R)) as (g & Hg & Hlen & _).
  exists g. split; [exact Hg | exact Hlen].
Defined.

Lemma pixel_problem_wf : BALProblem_wf pixel_problem.
Proof.
  split; simpl; try lia.
  - reflexivity.
  - constructor; [lia | constructor].
  - constructor; [lia | constructor].
Qed.

(** On the graph of the one-pixel problem the projection is (7, 14), the
    measurement (1, 2) and the error (6, 12). *)
Lemma computeError_is_projection_minus_measurement_witness :
  BALProblem_wf pixel_problem
  /\ exists (g : Graph R) e,
       build_graph pixel_problem = Some g
       /\ edges g !! 0%nat = Some e
       /\ computeError g e = Some (mkV2 6%R 12%R).
Proof.
  split; [apply pixel_problem_wf|].
  destruct (computeError_is_projection_minus_measurement
              pixel_problem pixel_problem_wf)
    as (g & Hg & Herr).
  destruct (Herr g eq_refl eq_refl eq_refl 0%nat)
    as (e & ci & pi & m0 & m1 & v0 & v1 & He & Hci & Hpi & Hm0 & Hm1
        & Hv0 & Hv1 & Hce).
  { simpl. lia. }
  exists g, e. split; [exact Hg|]. split; [exact He|].
  rewrite Hce. clear Hce Herr He.
  injection Hci as <-. injection Hpi as <-.
  injection Hm0 as <-. injection Hm1 as <-.
  change (build_graph pixel_problem) with
    (Some {| vertex_pose_intrinsics :=
               [{| pose_id := 0;
                   pose_estimate :=
                     {| rotation := SO3_exp (mkV3 0 0 0)%R;
                        translation := (mkV3 0 0 0)%R;
                        focal := 1%R; k1 := 1%R; k2 := 0%R |} |}];
             vertex_points :=
               [{| point_id := 1; point_estimate := (mkV3 1 2 (- (1)))%R;
                   point_marginalized := true |}];
             edges :=
               [{| _vertices_0 := 0; _vertices_1 := 0;
                   _measurement := (mkV2 1 2)%R;
                   _information := Matrix2_Identity;
                   _robustKernel := Some RobustKernelHuber |}] |}) in Hg.
  injection Hg as <-.
  injection Hv0 as <-. injection Hv1 as <-.
  cbn [pose_estimate point_estimate].
  unfold project. cbn [rotation translation focal k1 k2].
  change (SO3_exp (mkV3 0 0 0)%R) with (IdealSO3.exp (mkV3 0 0 0)%R).
  rewrite exp_zero.
  cbv [SO3_act SO3Group_quaternion q_transformVector q_vec v3_cross v3_add
       v3_div v3_neg v3_squaredNorm v3_0 v3_1 v3_2 v2_0 v2_1 q_w q_x q_y q_z
       sc_add sc_sub sc_mul sc_div sc_neg sc_one sc_zero Scalar_R].
  do 2 f_equal; field.
Defined.

(** [SolveBA] on the one-camera problem over the reals, with one round of
    a fixed increment in place of g2o: the translation and the point have
    moved by one in the array. *)
Lemma SolveBA_writes_estimates_back_witness :
  BALProblem_wf (tiny_problem 0%R 1%R)
  /\ exists p' : BALProblem R,
       SolveBA (fun _ => oplus_once [0; 0; 0; 1; 1; 1; 0; 0; 0]%R [1; 1; 1]%R)
               (tiny_problem 0%R 1%R) = Some p'
       /\ parameters_ p' = [0; 0; 0; 1; 1; 1; 1; 0; 0; 1; 1; 2]%R
       /\ observations_ p' = [0; 0]%R.
Proof.
  split; [apply tiny_problem_wf|].
  destruct (SolveBA_writes_estimates_back
              (fun _ => oplus_once [0; 0; 0; 1; 1; 1; 0; 0; 0]%R [1; 1; 1]%R)
              (tiny_problem 0%R 1%R) (tiny_problem_wf 0%R 1%R)
              (fun _ g => oplus_all_lengths _ _ 1 g))
    as (g & p' & Hg & Hs & _ & _ & Hcam & Hpt & Hlen & Hobs & _).
  exists p'. split; [exact Hs|]. split; [|exact Hobs].
  change (build_graph (tiny_problem 0%R 1%R)) with
    (Some {| vertex_pose_intrinsics :=
               [{| pose_id := 0;
                   pose_estimate :=
                     {| rotation := SO3_exp (mkV3 0 0 0)%R;
                        translation := (mkV3 0 0 0)%R;
                        focal := 1%R; k1 := 0%R; k2 := 0%R |} |}];
             vertex_points :=
               [{| point_id := 1; point_estimate := (mkV3 0 0 1)%R;
                   point_marginalized := true |}];
             edges :=
               [{| _vertices_0 := 0; _vertices_1 := 0;
                   _measurement := (mkV2 0 0)%R;
                   _information := Matrix2_Identity;
                   _robustKernel := Some RobustKernelHuber |}] |}) in Hg.
  injection Hg as <-.
  destruct (Hcam 0%nat) as (v & Hv & Hblock); [simpl; lia|].
  destruct (Hpt 0%nat) as (u & Hu & Hpoint); [simpl; lia|].
  injection Hv as <-. injection Hu as <-.
  change (oplus_pose _ _) with
    {| pose_id := 0%Z;
       pose_estimate :=
         {| rotation :=
              (q_mul (IdealSO3.exp (mkV3 0 0 0)%R)
                     (IdealSO3.exp (mkV3 0 0 0)%R)
               : @SO3d R SO3Group_quaternion);
            translation := (mkV3 (0 + 1) (0 + 1) (0 + 1))%R;
            focal := (1 + 0)%R; k1 := (0 + 0)%R; k2 := (0 + 0)%R |} |}
    in Hblock.
  change (oplus_point _ _) with
    {| point_id := 1%Z; point_estimate := (mkV3 (0 + 1) (0 + 1) (1 + 1))%R;
       point_marginalized := true |} in Hpoint.
  cbn [pose_estimate point_estimate rotation translation focal k1 k2
       v3_0 v3_1 v3_2] in Hblock, Hpoint.
  change (SO3_log ?q) with (IdealSO3.log q) in Hblock.
  rewrite exp_zero in Hblock.
  replace (q_mul (mkQ 1 0 0 0)%R (mkQ 1 0 0 0)%R) with (mkQ 1 0 0 0)%R
    in Hblock by (cbv [q_mul q_w q_x q_y q_z sc_add sc_mul sc_sub Scalar_R];
                  f_equal; ring).
  rewrite log_identity in Hblock.
  cbn [v3_0 v3_1 v3_2] in Hblock.
  clear Hcam Hpt Hs Hobs.
  apply list_eq. intros i.
  destruct (decide (i < 12)%nat) as [Hi|Hi].
  - do 12 (destruct i as [|i];
      [match goal with
       | |- _ !! ?k = _ =>
         first [ transitivity
                   ([0; 0; 0; 0 + 1; 0 + 1; 0 + 1; 1 + 0; 0 + 0; 0 + 0]%R
                      !! k);
                 [exact (Hblock k ltac:(lia))|]
               | transitivity ([0 + 1; 0 + 1; 1 + 1]%R !! (k - 9)%nat);
                 [exact (Hpoint (k - 9)%nat ltac:(simpl; lia))|] ]
       end;
       cbn [lookup list_lookup Nat.sub]; apply f_equal; lra|]).
    lia.
  - rewrite !lookup_ge_None_2; [done|simpl; lia|].
    rewrite Hlen. simpl. lia.
Defined.

(** ** C9: camera centre and back *)

Section Blocks.
Context {F : Type} `{Scalar F}.

Lemma read3_Some (mem : list F) off a b c :
  mem !! off = Some a -> mem !! (off + 1)%nat = Some b ->
  mem !! (off + 2)%nat = Some c -> read3 mem off = Some (mkV3 a b c).
Proof. intros Ha Hb Hc. unfold read3, load. by rewrite Ha, Hb, Hc. Qed.

Lemma read3_total (mem : list F) off :
  (off + 3 <= length mem)%nat ->
  exists a b c,
    mem !! off = Some a /\ mem !! (off + 1)%nat = Some b
    /\ mem !! (off + 2)%nat = Some c /\ read3 mem off = Some (mkV3 a b c).
Proof.
  intros Hlen.
  destruct (lookup_lt_is_Some_2 mem off) as [a Ha]; [lia|].
  destruct (lookup_lt_is_Some_2 mem (off + 1)) as [b Hb]; [lia|].
  destruct (lookup_lt_is_Some_2 mem (off + 2)) as [c Hc]; [lia|].
  exists a, b, c. repeat (split; [done|]). by apply read3_Some.
Qed.

Lemma write3_spec (mem : list F) off (v : Vector3 F) :
  (off + 3 <= length mem)%nat ->
  exists mem',
    write3 mem off v = Some mem'
    /\ length mem' = length mem
    /\ mem' !! off = Some (v3_0 v)
    /\ mem' !! (off + 1)%nat = Some (v3_1 v)
    /\ mem' !! (off + 2)%nat = Some (v3_2 v)
    /\ (forall i, (i < off \/ off + 3 <= i)%nat -> mem' !! i = mem !! i).
Proof.
  intros Hlen. unfold write3.
  repeat (rewrite store_Some by (rewrite ?length_insert; lia);
          cbn [mbind option_bind]).
  eexists. split; [done|]. split; [by rewrite !length_insert|].
  split; [by insert_lookup|]. split; [by insert_lookup|].
  split; [by insert_lookup|]. intros i Hi. by insert_lookup.
Qed.

End Blocks.

Section RodriguesFacts.
Import IdealSO3.
Local Open Scope R_scope.





End RodriguesFacts.

Section CameraBlocks.
Context {F : Type} `{Scalar F}.
Variable AngleAxisRotatePoint : Vector3 F -> Vector3 F -> Vector3 F.
Variable QuaternionToAngleAxis : Quaternion F -> Vector3 F.
Variable AngleAxisToQuaternion : Vector3 F -> Quaternion F.

Local Abbreviation CameraToAngleAxisAndCenter :=
  (CameraToAngleAxisAndCenter AngleAxisRotatePoint QuaternionToAngleAxis).
Local Abbreviation AngleAxisAndCenterToCamera :=
  (AngleAxisAndCenterToCamera AngleAxisRotatePoint AngleAxisToQuaternion).





End CameraBlocks.

Section CameraCentre.
Local Open Scope R_scope.
Variable AngleAxisRotatePoint : Vector3 R -> Vector3 R -> Vector3 R.
Variable QuaternionToAngleAxis : Quaternion R -> Vector3 R.
Variable AngleAxisToQuaternion : Vector3 R -> Quaternion R.

Local Abbreviation CameraToAngleAxisAndCenter :=
  (CameraToAngleAxisAndCenter AngleAxisRotatePoint QuaternionToAngleAxis).
Local Abbreviation AngleAxisAndCenterToCamera :=
  (AngleAxisAndCenterToCamera AngleAxisRotatePoint AngleAxisToQuaternion).

Implicit Types p : BALProblem R.



Hypothesis rotate_neg : forall w pt,
  AngleAxisRotatePoint w (v3_scale pt (- (1)))
  = v3_scale (AngleAxisRotatePoint w pt) (- (1)).
Hypothesis rotate_inverse : forall w pt,
  AngleAxisRotatePoint w (AngleAxisRotatePoint (v3_neg w) pt) = pt.



End CameraCentre.




(** ** Further properties of the projection *)

Section ProjectFurther.
Context `{G : SO3Group R}.
Local Open Scope R_scope.

(** X1.  In exact arithmetic and at a non-zero depth, with
    [(X, Y, Z) = R p + t], [x = - X / Z] and [y = - Y / Z], [project]
    returns [focal * d * (x, y)] where [d] is the distortion polynomial at
    the radius [x^2 + y^2 + 1]. *)
Theorem project_radius_is_image_radius_plus_one
    (e : PoseAndIntrinsics R) (p : Vector3 R) :
  depth e p <> 0 ->
  exists x y r2,
    x = - v3_0 (v3_add (SO3_act (rotation e) p) (translation e)) / depth e p
    /\ y = - v3_1 (v3_add (SO3_act (rotation e) p) (translation e))
           / depth e p
    /\ r2 = x * x + y * y + 1
    /\ project e p
       = mkV2 (focal e * (1 + k1 e * r2 + k2 e * (r2 * r2)) * x)
              (focal e * (1 + k1 e * r2 + k2 e * (r2 * r2)) * y).
Proof.
  intros Hz. eexists _, _, _.
  split; [reflexivity|]. split; [reflexivity|]. split; [reflexivity|].
  rewrite (project_exact e p Hz). reflexivity.
Qed.

(** X2.  [project] only sees the direction of the camera-frame point, not
    its sense: two points whose camera-frame coordinates are proportional,
    by a positive or a negative factor, have the same projection.  So a
    point behind the camera projects onto the pixel of its mirror image
    in front of it. *)
Theorem project_same_on_ray (e : PoseAndIntrinsics R) (p q : Vector3 R)
    (lambda : R) :
  lambda <> 0 ->
  depth e p <> 0 ->
  v3_add (SO3_act (rotation e) q) (translation e)
  = v3_scale (v3_add (SO3_act (rotation e) p) (translation e)) lambda ->
  project e q = project e p.
Proof.
  unfold depth, project. intros Hl Hz ->.
  destruct (v3_add (SO3_act (rotation e) p) (translation e)) as [X Y Z].
  cbn in *. f_equal; field; split; assumption.
Qed.

End ProjectFurther.

(** A camera at the origin over the reals, and a point in front of it
    with its mirror image behind. *)
Lemma project_radius_is_image_radius_plus_one_witness :
  depth (F := R)
    {| rotation := (SO3_identity : SO3d (F := R));
       translation := mkV3 0 0 0; focal := 1; k1 := 1; k2 := 0 |}%R
    (mkV3 1 2 (-1))%R <> 0%R
  /\ project (F := R)
       {| rotation := (SO3_identity : SO3d (F := R));
          translation := mkV3 0 0 0; focal := 1; k1 := 1; k2 := 0 |}%R
       (mkV3 1 2 (-1))%R
     = (mkV2 7 14)%R.
Proof.
  assert (Hd : depth (F := R)
    {| rotation := (SO3_identity : SO3d (F := R));
       translation := mkV3 0 0 0; focal := 1; k1 := 1; k2 := 0 |}%R
    (mkV3 1 2 (-1))%R <> 0%R).
  { cbn. intros Hc. lra. }
  split; [exact Hd|].
  destruct (project_radius_is_image_radius_plus_one _ _ Hd)
    as (x & y & r2 & -> & -> & -> & ->).
  cbn. f_equal; field.
Defined.

Lemma project_same_on_ray_witness :
  project (F := R)
    {| rotation := (SO3_identity : SO3d (F := R));
       translation := mkV3 0 0 0; focal := 1; k1 := 1; k2 := 0 |}%R
    (mkV3 (-1) (-2) 1)%R
  = project (F := R)
      {| rotation := (SO3_identity : SO3d (F := R));
         translation := mkV3 0 0 0; focal := 1; k1 := 1; k2 := 0 |}%R
      (mkV3 1 2 (-1))%R.
Proof.
  apply (project_same_on_ray _ _ _ (-1)%R).
  - intros Hc. lra.
  - cbn. intros Hc. lra.
  - cbv [v3_add v3_scale q_transformVector q_identity v3_cross q_vec
         SO3_act SO3_identity SO3Group_quaternion rotation translation
         v3_0 v3_1 v3_2 q_w q_x q_y q_z sc_add sc_sub sc_mul sc_one
         sc_zero Scalar_R].
    f_equal; ring.
Defined.

Section NonFiniteDepth.
Local Open Scope float_scope.

(** A float that is not finite is NaN or one of the two infinities. *)
Lemma not_finite_cases (d : float) :
  is_finite d = false -> d = nan \/ d = infinity \/ d = neg_infinity.
Proof.
  unfold is_finite, is_nan, is_infinity.
  rewrite !eqb_spec, abs_spec. intros Hd.
  rewrite <- (SF2Prim_Prim2SF d).
  destruct (Prim2SF d) as [[|]| [|] | |s m e].
  - discriminate Hd.
  - discriminate Hd.
  - right. right. reflexivity.
  - right. left. reflexivity.
  - left. reflexivity.
  - exfalso. revert Hd. unfold SFeqb, SFcompare, SFabs.
    rewrite Z.compare_refl, Pos.compare_cont_refl.
    destruct s; discriminate.
Qed.

Lemma neg_div_not_finite (d : float) :
  is_finite d = false -> (- d) / d = nan.
Proof. intros [-> | [-> | ->]]%not_finite_cases; reflexivity. Qed.

Context `{G : SO3Group float}.

Lemma project_nan_of_quotient (e : PoseAndIntrinsics float)
    (p : Vector3 float) :
  (- depth e p) / depth e p = nan -> project e p = mkV2 nan nan.
Proof.
  unfold depth, project.
  generalize (v3_add (SO3_act (rotation e) p) (translation e)).
  intros [a b d] Hd. simpl in Hd.
  unfold v3_squaredNorm, v3_div, v3_neg; simpl.
  rewrite Hd.
  rewrite mul_nan_l, add_nan_r, mul_nan_l, add_nan_r, mul_nan_r, !mul_nan_l.
  reflexivity.
Qed.

(** X3.  In binary64 [project] returns NaN in both coordinates whenever
    the camera-frame depth is not a finite non-zero number: a zero of
    either sign, an infinity or NaN. *)
Theorem project_nan_unless_depth_finite_nonzero
    (e : PoseAndIntrinsics float) (p : Vector3 float) :
  is_finite (depth e p) = false \/ is_zero (depth e p) = true ->
  project e p = mkV2 nan nan.
Proof.
  intros [Hinf | Hz]; apply project_nan_of_quotient.
  - by apply neg_div_not_finite.
  - by apply neg_div_zero.
Qed.

End NonFiniteDepth.

(** A point infinitely far along the optical axis. *)
Lemma project_nan_unless_depth_finite_nonzero_witness :
  is_finite (depth camera_k1 (mkV3 0%float 0%float neg_infinity)) = false
  /\ project camera_k1 (mkV3 0%float 0%float neg_infinity) = mkV2 nan nan.
Proof.
  assert (Hd : is_finite (depth camera_k1
                            (mkV3 0%float 0%float neg_infinity)) = false)
    by reflexivity.
  split; [exact Hd|].
  apply project_nan_unless_depth_finite_nonzero. left. exact Hd.
Defined.

(** ** Further properties of the vertices and of [SolveBA] *)

Section PointUpdate.
Context `{G : SO3Group R}.
Local Open Scope R_scope.


End PointUpdate.

Section GraphFurther.
Context {F : Type} `{Scalar F} `{SO3Group F} `{!SO3ExpLog F}.
Implicit Types p : BALProblem F.

(** X5.  On a well-formed problem the graph has one camera vertex per
    camera, holding the estimate built from its block, and one
    marginalised point vertex per point, holding the three scalars of its
    block; camera vertex [k] has id [k] and point vertex [k] has id
    [k + num_cameras], so no id is given twice. *)
Theorem build_graph_vertices p :
  BALProblem_wf p ->
  exists g,
    build_graph p = Some g
    /\ length (vertex_pose_intrinsics g) = Z.to_nat (num_cameras_ p)
    /\ length (vertex_points g) = Z.to_nat (num_points_ p)
    /\ (forall k v, vertex_pose_intrinsics g !! k = Some v ->
          PoseAndIntrinsics_of (parameters_ p)
            (Z.to_nat (camera_block_size p) * k)
          = Some (pose_estimate v))
    /\ (forall k v, vertex_points g !! k = Some v ->
          point_marginalized v = true
          /\ read3 (parameters_ p)
               (Z.to_nat (camera_block_size p) * Z.to_nat (num_cameras_ p)
                + 3 * k)
             = Some (point_estimate v))
    /\ (forall i, ((pose_id <$> vertex_pose_intrinsics g)
                   ++ (point_id <$> vertex_points g)) !! i
                  = (if decide (i < Z.to_nat (num_cameras_ p)
                                    + Z.to_nat (num_points_ p))%nat
                     then Some (Z.of_nat i) else None))
    /\ NoDup ((pose_id <$> vertex_pose_intrinsics g)
              ++ (point_id <$> vertex_points g)).
Proof.
  intros Hwf.
  destruct (build_graph_spec p Hwf)
    as (g & Hg & Hcl & Hpl & _ & Hcams & Hpts & _).
  pose proof (wf_cameras p Hwf) as Hnc.
  assert (Hids : forall i,
    ((pose_id <$> vertex_pose_intrinsics g)
     ++ (point_id <$> vertex_points g)) !! i
    = (if decide (i < Z.to_nat (num_cameras_ p)
                      + Z.to_nat (num_points_ p))%nat
       then Some (Z.of_nat i) else None)).
  { intros i. case_decide as Hi.
    - destruct (decide (i < Z.to_nat (num_cameras_ p))%nat) as [Hc|Hc].
      + rewrite lookup_app_l by (rewrite length_fmap; lia).
        rewrite list_lookup_fmap.
        destruct (lookup_lt_is_Some_2 (vertex_pose_intrinsics g) i)
          as [v Hv]; [lia|].
        rewrite Hv. simpl. f_equal. by apply Hcams.
      + rewrite lookup_app_r by (rewrite length_fmap; lia).
        rewrite length_fmap, list_lookup_fmap, Hcl.
        destruct (lookup_lt_is_Some_2 (vertex_points g)
                    (i - Z.to_nat (num_cameras_ p))) as [v Hv]; [lia|].
        rewrite Hv. simpl. f_equal.
        destruct (Hpts _ _ Hv) as [-> _]. lia.
    - apply lookup_ge_None_2. rewrite length_app, !length_fmap. lia. }
  exists g. split; [done|]. split; [done|]. split; [done|].
  split; [intros k v Hv; by apply Hcams|].
  split; [intros k v Hv; destruct (Hpts k v Hv) as (_ & ? & ?); done|].
  split; [exact Hids|].
  apply NoDup_alt. intros i j x Hi Hj.
  rewrite Hids in Hi, Hj.
  repeat case_decide; simplify_eq. lia.
Qed.

(** A loop with a step that is undefined in every state is undefined. *)
Lemma for_range_None {S : Type} (body : nat -> S -> option S)
    (count start i : nat) (s : S) :
  (start <= i < start + count)%nat ->
  (forall s, body i s = None) ->
  for_range body start count s = None.
Proof.
  revert start s. induction count as [|k IH]; intros start s Hi Hb; [lia|].
  simpl. destruct (decide (i = start)) as [->|Hne].
  - by rewrite Hb.
  - destruct (body start s) as [s1|]; [|done]. simpl.
    apply IH; [lia|done].
Qed.

Lemma camera_vertices_length p cameras cams :
  for_range (add_camera_vertex p cameras) 0 (Z.to_nat (num_cameras_ p)) []
  = Some cams ->
  length cams = Z.to_nat (num_cameras_ p).
Proof.
  intros Hr.
  apply (for_range_inv
           (fun n (vs : list (VertexPoseAndIntrinsics F)) => length vs = n)
           _ _ _ _ _ Hr); [done|].
  intros i s s1 _ Hs Hb. unfold add_camera_vertex in Hb.
  apply bind_Some in Hb as (e & _ & [= <-]).
  rewrite length_app. simpl. lia.
Qed.

(** X6.  [SolveBA] indexes its vector of camera vertices with
    [camera_index[i]] unchecked: on a problem one of whose observations
    names a camera below 0 or not below [num_cameras], the run is
    undefined, whatever the optimizer. *)
Theorem SolveBA_undefined_on_bad_camera_index
    (optimize : nat -> Graph F -> Graph F) p (i : nat) (ci : Z) :
  (i < Z.to_nat (num_observations_ p))%nat ->
  camera_index_ p !! i = Some ci ->
  (ci < 0 \/ num_cameras_ p <= ci)%Z ->
  SolveBA optimize p = None.
Proof.
  intros Hi Hci Hbad. unfold SolveBA.
  destruct (mutable_points p) as [points|]; [|done].
  cbn [mbind option_bind mutable_cameras].
  replace (build_graph p) with (@None (Graph F)); [done|].
  symmetry. unfold build_graph.
  destruct (mutable_points p) as [points'|]; [|done].
  cbn [mbind option_bind mutable_cameras].
  destruct (for_range (add_camera_vertex p 0) _ _ _) as [cams|] eqn:Ec;
    [|done].
  cbn [mbind option_bind].
  destruct (for_range (add_point_vertex p points') _ _ _) as [pts|];
    [|done].
  cbn [mbind option_bind].
  rewrite (for_range_None (add_edge p cams pts) _ 0 i); [done|lia|].
  intros es. unfold add_edge. rewrite Hci. cbn [mbind option_bind].
  apply camera_vertices_length in Ec.
  unfold vector_at. case_decide; [|done].
  rewrite (lookup_ge_None_2 cams) by lia. done.
Qed.

End GraphFurther.

(** One observation that names camera 1 of a problem with one camera. *)
Lemma SolveBA_undefined_on_bad_camera_index_witness :
  SolveBA (fun _ (g : Graph R) => g)
    {| num_cameras_ := 1; num_points_ := 1; num_observations_ := 1;
       num_parameters_ := 12; use_quaternions_ := false;
       point_index_ := [0%Z]; camera_index_ := [1%Z];
       observations_ := [0; 0]%R;
       parameters_ := [0; 0; 0; 0; 0; 0; 1; 0; 0; 0; 0; 1]%R |}
  = None.
Proof.
  apply (SolveBA_undefined_on_bad_camera_index _ _ 0%nat 1%Z).
  - simpl. lia.
  - reflexivity.
  - simpl. lia.
Defined.

(** The one-camera problem: its two vertices have the ids 0 and 1. *)
Lemma build_graph_vertices_witness :
  BALProblem_wf (tiny_problem 0%R 1%R)
  /\ exists g : Graph R,
       build_graph (tiny_problem 0%R 1%R) = Some g
       /\ (pose_id <$> vertex_pose_intrinsics g)
          ++ (point_id <$> vertex_points g) = [0%Z; 1%Z].
Proof.
  split; [apply tiny_problem_wf|].
  destruct (build_graph_vertices (tiny_problem 0%R 1%R)
              (tiny_problem_wf 0%R 1%R))
    as (g & Hg & Hcl & Hpl & _ & _ & Hids & _).
  exists g. split; [exact Hg|].
  apply list_eq. intros i. rewrite Hids.
  destruct i as [|[|i]]; reflexivity.
Defined.

Section SolveBAFurther.
Context {F : Type} `{Scalar F} `{SO3Group F} `{!SO3ExpLog F}.
Implicit Types p : BALProblem F.

Lemma toRaw_of_block (mem : list F) (off : nat) (e : PoseAndIntrinsics F)
    (w : Vector3 F) (j : nat) :
  PoseAndIntrinsics_of mem off = Some e ->
  read3 mem off = Some w ->
  SO3_log (SO3_exp w) = w ->
  (j < 9)%nat ->
  toRaw_spec e !! j = mem !! (off + j)%nat.
Proof.
  unfold PoseAndIntrinsics_of, read3, load. intros He Hw Hlog Hj.
  destruct (mem !! off) as [d0|] eqn:E0; [|done].
  destruct (mem !! (off + 1)%nat) as [d1|] eqn:E1; [|done].
  destruct (mem !! (off + 2)%nat) as [d2|] eqn:E2; [|done].
  destruct (mem !! (off + 3)%nat) as [d3|] eqn:E3; [|done].
  destruct (mem !! (off + 4)%nat) as [d4|] eqn:E4; [|done].
  destruct (mem !! (off + 5)%nat) as [d5|] eqn:E5; [|done].
  destruct (mem !! (off + 6)%nat) as [d6|] eqn:E6; [|done].
  destruct (mem !! (off + 7)%nat) as [d7|] eqn:E7; [|done].
  destruct (mem !! (off + 8)%nat) as [d8|] eqn:E8; [|done].
  cbn in He, Hw. injection He as <-. injection Hw as <-.
  unfold toRaw_spec. cbn [rotation translation focal k1 k2].
  rewrite Hlog. cbn [v3_0 v3_1 v3_2].
  do 9 (destruct j as [|j]; [rewrite ?Nat.add_0_r; by cbn|]).
  lia.
Qed.

(** X7.  In angle-axis mode, on a well-formed problem whose camera
    rotation vectors all lie on the branch of the logarithm (the logarithm
    undoes the exponential on them), [SolveBA] around an optimizer that
    leaves the graph as it is returns the problem unchanged: building the
    graph and writing it back is a round trip. *)
Theorem SolveBA_round_trip p :
  BALProblem_wf p ->
  use_quaternions_ p = false ->
  (forall k w, (k < Z.to_nat (num_cameras_ p))%nat ->
     read3 (parameters_ p) (9 * k) = Some w -> SO3_log (SO3_exp w) = w) ->
  SolveBA (fun _ g => g) p = Some p.
Proof.
  intros Hwf Hq Hbranch.
  destruct (build_graph_spec p Hwf)
    as (g & Hg & Hcl & Hpl & _ & Hcams & Hpts & _).
  destruct (save_cameras_spec p g Hwf Hcl)
    as (mem1 & Hr1 & Hlen1 & Hc1 & _).
  destruct (save_points_spec p g mem1 Hwf Hlen1 Hpl)
    as (mem2 & Hr2 & Hlen2 & Hp2 & Hkeep).
  pose proof (parameters_length p Hwf) as Hlen.
  assert (Hc : Z.to_nat (camera_block_size p) = 9%nat)
    by (unfold camera_block_size; by rewrite Hq).
  rewrite Hc in *.
  unfold SolveBA. rewrite (mutable_points_wf p Hwf). unfold mutable_cameras.
  cbn [mbind option_bind]. rewrite Hg. cbn [mbind option_bind].
  rewrite Hc, Hr1. cbn [mbind option_bind].
  rewrite Hr2. cbn [mbind option_bind].
  assert (Hmem : mem2 = parameters_ p).
  { apply list_eq. intros idx.
    destruct (decide (idx < 9 * Z.to_nat (num_cameras_ p))%nat) as [Hi|Hi].
    - rewrite Hkeep by done.
      pose proof (Nat.div_mod_eq idx 9) as Hdm.
      pose proof (Nat.mod_upper_bound idx 9) as Hm.
      set (k := (idx / 9)%nat) in *. set (j := (idx mod 9)%nat) in *.
      destruct (lookup_lt_is_Some_2 (vertex_pose_intrinsics g) k)
        as [v Hv]; [lia|].
      destruct (Hcams k v Hv) as [_ He].
      replace idx with (9 * k + j)%nat by lia.
      rewrite (Hc1 k v j Hv) by lia.
      destruct (read3_total (parameters_ p) (9 * k))
        as (a & b & c & _ & _ & _ & Hw); [lia|].
      apply (toRaw_of_block _ _ _ _ _ He Hw); [|lia].
      apply (Hbranch k); [lia|done].
    - destruct (decide (idx < length (parameters_ p))%nat) as [Hin|Hout].
      + pose proof (Nat.div_mod_eq (idx - 9 * Z.to_nat (num_cameras_ p)) 3)
          as Hdm.
        pose proof (Nat.mod_upper_bound
                      (idx - 9 * Z.to_nat (num_cameras_ p)) 3) as Hm.
        set (k := ((idx - 9 * Z.to_nat (num_cameras_ p)) / 3)%nat) in *.
        set (j := ((idx - 9 * Z.to_nat (num_cameras_ p)) mod 3)%nat) in *.
        destruct (lookup_lt_is_Some_2 (vertex_points g) k) as [v Hv]; [lia|].
        destruct (Hpts k v Hv) as (_ & _ & Hold).
        pose proof (Hp2 k v Hv) as Hnew.
        rewrite <- Hold in Hnew. unfold read3, load in Hnew.
        set (b := (9 * Z.to_nat (num_cameras_ p) + 3 * k)%nat) in *.
        assert (Hidx : (idx = b \/ idx = b + 1 \/ idx = b + 2)%nat) by lia.
        assert (Hb : (b + 3 <= length (parameters_ p))%nat) by lia.
        clearbody b. clear Hdm Hm Hv. clearbody k j.
        destruct (lookup_lt_is_Some_2 (parameters_ p) b) as [y0 F0];
          [lia|].
        destruct (lookup_lt_is_Some_2 (parameters_ p) (b + 1)) as [y1 F1];
          [lia|].
        destruct (lookup_lt_is_Some_2 (parameters_ p) (b + 2)) as [y2 F2];
          [lia|].
        rewrite F0, F1, F2 in Hnew. cbn in Hnew.
        destruct (mem2 !! b) as [x0|] eqn:E0; [|by cbn in Hnew].
        destruct (mem2 !! (b + 1)%nat) as [x1|] eqn:E1; [|by cbn in Hnew].
        destruct (mem2 !! (b + 2)%nat) as [x2|] eqn:E2; [|by cbn in Hnew].
        cbn in Hnew. injection Hnew as -> -> ->.
        destruct Hidx as [-> | [-> | ->]]; congruence.
      + rewrite !lookup_ge_None_2 by lia. done. }
  rewrite Hmem. by destruct p.
Qed.

End SolveBAFurther.

Section AccessorFacts.
Context {F : Type} `{Scalar F} `{SO3Group F} `{!SO3ExpLog F}.
Implicit Types p : BALProblem F.

(** X8.  On a well-formed problem the accessors of observation [i] give
    the camera block [camera_index[i]] and the point block
    [point_index[i]]: the camera block lies inside the camera part of the
    parameter array, the point block inside the point part behind it, so
    the two never overlap; for an [i] that is no observation the accessors
    are undefined. *)
Theorem observation_blocks_in_bounds p (i : Z) :
  BALProblem_wf p ->
  ((0 <= i < num_observations_ p)%Z ->
   exists ci pi c pt,
     camera_index_ p !! Z.to_nat i = Some ci
     /\ point_index_ p !! Z.to_nat i = Some pi
     /\ camera_for_observation p i = Some c
     /\ point_for_observation p i = Some pt
     /\ c = (Z.to_nat (camera_block_size p) * Z.to_nat ci)%nat
     /\ pt = (Z.to_nat (camera_block_size p) * Z.to_nat (num_cameras_ p)
              + 3 * Z.to_nat pi)%nat
     /\ (c + Z.to_nat (camera_block_size p)
         <= Z.to_nat (camera_block_size p) * Z.to_nat (num_cameras_ p))%nat
     /\ (Z.to_nat (camera_block_size p) * Z.to_nat (num_cameras_ p)
         <= pt)%nat
     /\ (pt + 3 <= length (parameters_ p))%nat)
  /\ (~ (0 <= i < num_observations_ p)%Z ->
      camera_for_observation p i = None
      /\ point_for_observation p i = None).
Proof.
  intros Hwf.
  pose proof (wf_camera_index_len p Hwf) as Hcl.
  pose proof (wf_point_index_len p Hwf) as Hpl.
  pose proof (parameters_length p Hwf) as Hlen.
  pose proof (wf_cameras p Hwf) as Hnc.
  pose proof (wf_points p Hwf) as Hnp.
  split.
  - intros Hi.
    destruct (lookup_lt_is_Some_2 (camera_index_ p) (Z.to_nat i))
      as [ci Hci]; [lia|].
    destruct (lookup_lt_is_Some_2 (point_index_ p) (Z.to_nat i))
      as [pi Hpi]; [lia|].
    pose proof (proj1 (Forall_lookup _ _) (wf_camera_index p Hwf) _ _ Hci)
      as Hcr.
    pose proof (proj1 (Forall_lookup _ _) (wf_point_index p Hwf) _ _ Hpi)
      as Hpr.
    simpl in Hcr, Hpr.
    assert (Hz : camera_block_size p = 9%Z \/ camera_block_size p = 10%Z)
      by (unfold camera_block_size; destruct (use_quaternions_ p); auto).
    unfold camera_for_observation, point_for_observation, vector_at.
    rewrite !decide_True by lia. rewrite Hci, Hpi.
    cbn [mbind option_bind mutable_cameras].
    rewrite (mutable_points_wf p Hwf). cbn [mbind option_bind].
    unfold pointer_add, point_block_size.
    destruct Hz as [Hz | Hz]; rewrite Hz in *;
      rewrite !decide_True by lia;
      exists ci, pi; eexists _, _;
      (split; [reflexivity|]); (split; [reflexivity|]);
      (split; [reflexivity|]); (split; [reflexivity|]);
      (split; [lia|]); (split; [lia|]);
      (split; [lia|]); (split; [lia|]); lia.
  - intros Hi.
    unfold camera_for_observation, point_for_observation, vector_at.
    case_decide; [|done].
    rewrite !lookup_ge_None_2 by lia. done.
Qed.

(** X9.  The accessors and the graph agree: on a well-formed problem the
    camera vertex of the edge of observation [i] holds the estimate built
    from the block at [camera_for_observation(i)], and its point vertex
    the three scalars at [point_for_observation(i)]. *)
Theorem edge_vertices_are_observation_blocks p (i : nat) :
  BALProblem_wf p ->
  (i < Z.to_nat (num_observations_ p))%nat ->
  exists g e c pt v0 v1,
    build_graph p = Some g
    /\ edges g !! i = Some e
    /\ camera_for_observation p (Z.of_nat i) = Some c
    /\ point_for_observation p (Z.of_nat i) = Some pt
    /\ vertex_pose_intrinsics g !! _vertices_0 e = Some v0
    /\ PoseAndIntrinsics_of (parameters_ p) c = Some (pose_estimate v0)
    /\ vertex_points g !! _vertices_1 e = Some v1
    /\ read3 (parameters_ p) pt = Some (point_estimate v1).
Proof.
  intros Hwf Hi.
  destruct (build_graph_spec p Hwf)
    as (g & Hg & Hcl & Hpl & _ & Hcams & Hpts & Hes).
  destruct (Hes i Hi) as (ci & pi & m0 & m1 & Hci & Hpi & Hcr & Hpr
                          & _ & _ & He).
  destruct (lookup_lt_is_Some_2 (vertex_pose_intrinsics g) (Z.to_nat ci))
    as [v0 Hv0]; [lia|].
  destruct (lookup_lt_is_Some_2 (vertex_points g) (Z.to_nat pi))
    as [v1 Hv1]; [lia|].
  destruct (Hcams _ _ Hv0) as [_ Hest0].
  destruct (Hpts _ _ Hv1) as (_ & _ & Hest1).
  pose proof (parameters_length p Hwf) as Hlen.
  pose proof (wf_cameras p Hwf) as Hnc.
  pose proof (wf_points p Hwf) as Hnp.
  assert (Hz : camera_block_size p = 9%Z \/ camera_block_size p = 10%Z)
    by (unfold camera_block_size; destruct (use_quaternions_ p); auto).
  unfold camera_for_observation, point_for_observation, vector_at.
  rewrite !decide_True by lia. rewrite !Nat2Z.id, Hci, Hpi.
  cbn [mbind option_bind mutable_cameras].
  rewrite (mutable_points_wf p Hwf). cbn [mbind option_bind].
  unfold pointer_add, point_block_size.
  destruct Hz as [Hz | Hz]; rewrite Hz in *;
    rewrite !decide_True by lia;
    eexists g, _, _, _, v0, v1;
    (split; [done|]); (split; [exact He|]);
    (split; [reflexivity|]); (split; [reflexivity|]);
    cbn [_vertices_0 _vertices_1];
    (split; [done|]); (split; [rewrite <- Hest0; f_equal; lia|]);
    (split; [done|]); rewrite <- Hest1; f_equal; lia.
Qed.

End AccessorFacts.

(** The one-camera problem over the reals: its rotation vector is zero,
    which is on the branch of the ideal logarithm. *)
Lemma SolveBA_round_trip_witness :
  BALProblem_wf (tiny_problem 0%R 1%R)
  /\ SolveBA (fun _ g => g) (tiny_problem 0%R 1%R)
     = Some (tiny_problem 0%R 1%R).
Proof.
  split; [apply tiny_problem_wf|].
  apply SolveBA_round_trip.
  - apply tiny_problem_wf.
  - reflexivity.
  - intros k w Hk Hw. simpl in Hk.
    assert (k = 0%nat) as -> by lia.
    cbn in Hw. injection Hw as <-. apply log_exp_zero.
Defined.

Lemma observation_blocks_in_bounds_witness :
  BALProblem_wf (tiny_problem 0%float 1%float)
  /\ camera_for_observation (tiny_problem 0%float 1%float) 0 = Some 0%nat
  /\ point_for_observation (tiny_problem 0%float 1%float) 0 = Some 9%nat
  /\ camera_for_observation (tiny_problem 0%float 1%float) 1 = None.
Proof.
  split; [apply tiny_problem_wf|].
  destruct (observation_blocks_in_bounds (F := float)
              (tiny_problem 0%float 1%float) 0) as [Hin _].
  { apply tiny_problem_wf. }
  destruct Hin as (ci & pi & c & pt & Hci & Hpi & Hc & Hpt & -> & -> & _).
  { simpl. lia. }
  cbn in Hci, Hpi. injection Hci as <-. injection Hpi as <-.
  split; [exact Hc|]. split; [exact Hpt|]. reflexivity.
Defined.

Lemma edge_vertices_are_observation_blocks_witness :
  BALProblem_wf (tiny_problem 0%R 1%R)
  /\ exists (g : Graph R) e,
       build_graph (tiny_problem 0%R 1%R) = Some g
       /\ edges g !! 0%nat = Some e
       /\ camera_for_observation (tiny_problem 0%R 1%R) 0 = Some 0%nat.
Proof.
  split; [apply tiny_problem_wf|].
  destruct (edge_vertices_are_observation_blocks (tiny_problem 0%R 1%R) 0
              (tiny_problem_wf 0%R 1%R))
    as (g & e & c & pt & v0 & v1 & Hg & He & Hc & _).
  { simpl. lia. }
  exists g, e. split; [exact Hg|]. split; [exact He|]. reflexivity.
Defined.

(** ** Further properties of the text writer *)

Section WriterFurther.
Context {F : Type} `{Scalar F}.
Variable QuaternionToAngleAxis : Quaternion F -> Vector3 F.

Local Abbreviation WriteToFile := (WriteToFile QuaternionToAngleAxis).
Local Abbreviation camera_loop := (camera_loop QuaternionToAngleAxis).
Local Abbreviation angleaxis_of := (angleaxis_of QuaternionToAngleAxis).

Lemma write_observation_length (p : BALProblem F) i out out' :
  write_observation p i out = Some out' ->
  length out' = (length out + 4)%nat.
Proof.
  unfold write_observation. intros Hw.
  apply bind_Some in Hw as (ci & _ & Hw).
  apply bind_Some in Hw as (pi & _ & Hw).
  pose proof (for_range_inv
    (fun j (o : list (item F)) => length o = (length out + 2 + j)%nat)
    _ _ _ _ _ Hw) as Hinv.
  simpl in Hinv. rewrite Hinv; [lia| |].
  - rewrite length_app. simpl. lia.
  - intros j s s1 _ Hs Hb. apply bind_Some in Hb as (x & _ & [= <-]).
    rewrite length_app. simpl. lia.
Qed.

Lemma write_point_spec (p : BALProblem F) points i out :
  (points + i * 3 + 3 <= length (parameters_ p))%nat ->
  exists out',
    write_point p points i out = Some out'
    /\ length out' = (length out + 3)%nat.
Proof.
  intros Hlen. unfold write_point, point_block_size.
  change (Z.to_nat 3) with 3%nat.
  destruct (for_range_total
    (fun j (o : list (item F)) => length o = (length out + j)%nat)
    (fun j o => x ← load (parameters_ p) (points + i * 3 + j)%nat;
                Some (o ++ [Double_16g x])) 3 0 out)
    as (out' & Hr & Hl); [lia| |].
  - intros j s Hj Hs. unfold load.
    destruct (lookup_lt_is_Some_2 (parameters_ p) (points + i * 3 + j))
      as [x ->]; [lia|].
    cbn [mbind option_bind]. eexists. split; [done|].
    rewrite length_app. simpl. lia.
  - exists out'. split; [done|]. lia.
Qed.

(** X10.  On a well-formed problem with the file opened, [WriteToFile]
    returns on some step budget exactly when the problem has no camera;
    it then returns on every budget of at least one step, having written
    the four header integers, four items per observation and three per
    point. *)
Theorem WriteToFile_returns_iff_no_camera (p : BALProblem F) :
  BALProblem_wf p ->
  ((exists fuel out, WriteToFile fuel p true = Done out)
   <-> num_cameras_ p = 0%Z)
  /\ (num_cameras_ p = 0%Z ->
      exists out,
        (forall fuel, WriteToFile (Datatypes.S fuel) p true = Done out)
        /\ length out
           = (4 + 4 * Z.to_nat (num_observations_ p)
              + 3 * Z.to_nat (num_points_ p))%nat).
Proof.
  intros Hwf.
  assert (Hret : num_cameras_ p = 0%Z ->
    exists out,
      (forall fuel, WriteToFile (Datatypes.S fuel) p true = Done out)
      /\ length out
         = (4 + 4 * Z.to_nat (num_observations_ p)
            + 3 * Z.to_nat (num_points_ p))%nat).
  { intros Hnc.
    pose proof (parameters_length p Hwf) as Hlen. rewrite Hnc in Hlen.
    destruct (for_range_total
      (fun n (o : list (item F)) => length o = (4 + 4 * n)%nat)
      (write_observation p) (Z.to_nat (num_observations_ p)) 0 (header p))
      as (o1 & Hr1 & Hl1); [done| |].
    { intros i s Hi Hs.
      destruct (write_observation_total p i s Hwf) as [s' Hs']; [lia|].
      exists s'. split; [done|].
      rewrite (write_observation_length p i s s' Hs'). lia. }
    assert (Hmp : mutable_points p = Some 0%nat).
    { rewrite (mutable_points_wf p Hwf), Hnc. f_equal. lia. }
    destruct (for_range_total
      (fun n (o : list (item F)) => length o = (length o1 + 3 * n)%nat)
      (write_point p 0) (Z.to_nat (num_points_ p)) 0 o1)
      as (o2 & Hr2 & Hl2); [lia| |].
    { intros i s Hi Hs.
      destruct (write_point_spec p 0 i s) as (s' & Hs' & Hl'); [lia|].
      exists s'. split; [done|]. lia. }
    exists o2. split; [|lia].
    intros fuel. unfold WriteToFile. rewrite Hr1.
    simpl camera_loop. rewrite decide_False by lia.
    rewrite Hmp. cbn [mbind option_bind]. by rewrite Hr2. }
  split; [|exact Hret].
  split.
  - intros (fuel & out & Hdone).
    pose proof (wf_cameras p Hwf) as Hnc.
    destruct (decide (num_cameras_ p = 0%Z)) as [|Hne]; [done|].
    exfalso. revert Hdone. unfold WriteToFile.
    destruct (for_range _ _ _ _) as [o|]; [|done].
    destruct (camera_loop fuel p 0 o) as [o'| |] eqn:E; [|done|done].
    apply camera_loop_not_Done in E; [done|lia].
  - intros Hnc. destruct (Hret Hnc) as (out & Hout & _).
    exists 1%nat, out. apply Hout.
Qed.

(** Once [i] has reached [INT_MAX] the next [++i] overflows. *)
Lemma camera_inner_loop_overflows (angleaxis : list F) x n i out fuel :
  angleaxis !! 0%nat = Some x ->
  (i + Z.of_nat n = INT_MAX)%Z ->
  (n < fuel)%nat ->
  camera_inner_loop fuel angleaxis i 0 out
  = Undefined (out ++ replicate (Datatypes.S n) (Double_16g x)).
Proof.
  intros Hx. revert i out fuel.
  induction n as [|n IH]; intros i out fuel Hi Hf;
    (destruct fuel as [|fuel]; [lia|]);
    cbn [camera_inner_loop];
    rewrite decide_True by done;
    replace (vector_at angleaxis 0) with (Some x) by done.
  - rewrite decide_True by lia. done.
  - rewrite decide_False by lia.
    rewrite (IH (i + 1)%Z) by lia.
    by rewrite <- app_assoc.
Qed.

(** X11.  On a well-formed problem with at least one camera and the file
    opened, every run of [WriteToFile] of more than [INT_MAX + 1] steps
    ends in the same undefined behaviour: after the header and the
    observations it has printed the first scalar of the first camera
    [INT_MAX + 1] times, and the [int] counter overflows. *)
Theorem WriteToFile_overflows (p : BALProblem F) :
  BALProblem_wf p ->
  (1 <= num_cameras_ p)%Z ->
  exists pre aa x,
    angleaxis_of p 0 = Some aa /\ aa !! 0%nat = Some x
    /\ forall fuel, (Z.to_nat INT_MAX + 2 <= fuel)%nat ->
         WriteToFile fuel p true
         = Undefined
             (pre ++ replicate (Datatypes.S (Z.to_nat INT_MAX))
                               (Double_16g x)).
Proof.
  intros Hwf Hc.
  destruct (angleaxis_of_first QuaternionToAngleAxis p Hwf Hc)
    as (aa & x & Haa & Hx).
  destruct (for_range_total (fun _ (_ : list (item F)) => True)
              (write_observation p)
              (Z.to_nat (num_observations_ p)) 0 (header p) I)
    as (pre & Hpre & _).
  { intros i s Hi _.
    destruct (write_observation_total p i s Hwf) as [s' Hs']; [lia|].
    eauto. }
  exists pre, aa, x. split; [done|]. split; [done|].
  assert (HN : Z.of_nat (Z.to_nat INT_MAX) = INT_MAX) by (apply Z2Nat.id; done).
  generalize dependent (Z.to_nat INT_MAX). intros N HN fuel Hfuel.
  destruct fuel as [|fuel]; [lia|].
  unfold WriteToFile. rewrite Hpre. simpl camera_loop.
  rewrite decide_True by lia. rewrite Haa.
  by rewrite (camera_inner_loop_overflows aa x N 0 pre fuel Hx) by lia.
Qed.

End WriterFurther.

Lemma WriteToFile_returns_iff_no_camera_witness :
  BALProblem_wf (points_only_problem 1%float 2%float 3%float)
  /\ exists out,
       (forall fuel,
          WriteToFile q_vec (Datatypes.S fuel)
            (points_only_problem 1%float 2%float 3%float) true = Done out)
       /\ length out = 7%nat.
Proof.
  assert (Hwf : BALProblem_wf (points_only_problem 1%float 2%float 3%float)).
  { split; simpl; try lia; try reflexivity; constructor. }
  split; [exact Hwf|].
  exact (proj2 (WriteToFile_returns_iff_no_camera q_vec
                  (points_only_problem 1%float 2%float 3%float) Hwf)
               eq_refl).
Defined.

Lemma WriteToFile_overflows_witness :
  BALProblem_wf (tiny_problem 0%float 1%float)
  /\ (1 <= num_cameras_ (tiny_problem 0%float 1%float))%Z
  /\ exists pre aa x,
       angleaxis_of q_vec (tiny_problem 0%float 1%float) 0 = Some aa
       /\ aa !! 0%nat = Some x
       /\ forall fuel, (Z.to_nat INT_MAX + 2 <= fuel)%nat ->
            WriteToFile q_vec fuel (tiny_problem 0%float 1%float) true
            = Undefined
                (pre ++ replicate (Datatypes.S (Z.to_nat INT_MAX))
                                  (Double_16g x)).
Proof.
  assert (Hwf : BALProblem_wf (tiny_problem 0%float 1%float))
    by apply tiny_problem_wf.
  assert (Hc : (1 <= num_cameras_ (tiny_problem 0%float 1%float))%Z)
    by (simpl; lia).
  split; [exact Hwf|]. split; [exact Hc|].
  exact (WriteToFile_overflows q_vec (tiny_problem 0%float 1%float) Hwf Hc).
Defined.

(** ** Bounds and frame of the camera-block writers *)

Section BlockWriters.
Context {F : Type} `{Scalar F}.
Variable AngleAxisRotatePoint : Vector3 F -> Vector3 F -> Vector3 F.
Variable AngleAxisToQuaternion : Vector3 F -> Quaternion F.

Local Abbreviation AngleAxisAndCenterToCamera :=
  (AngleAxisAndCenterToCamera AngleAxisRotatePoint AngleAxisToQuaternion).

Lemma write4_spec (mem : list F) off (q : Quaternion F) :
  (off + 4 <= length mem)%nat ->
  exists mem',
    write4 mem off q = Some mem'
    /\ length mem' = length mem
    /\ (forall i, (i < off \/ off + 4 <= i)%nat -> mem' !! i = mem !! i).
Proof.
  intros Hlen. unfold write4.
  repeat (rewrite store_Some by (rewrite ?length_insert; lia);
          cbn [mbind option_bind]).
  eexists. split; [done|]. split; [by rewrite !length_insert|].
  intros i Hi. by insert_lookup.
Qed.

Lemma write3_None (mem : list F) off (v : Vector3 F) :
  (length mem < off + 3)%nat -> write3 mem off v = None.
Proof.
  intros Hlen. unfold write3, store.
  repeat (case_decide; cbn [mbind option_bind]; [|done]).
  exfalso.
  repeat match goal with
  | Hi : context [length (<[_ := _]> _)] |- _ => rewrite length_insert in Hi
  end. lia.
Qed.

Lemma write4_None (mem : list F) off (q : Quaternion F) :
  (length mem < off + 4)%nat -> write4 mem off q = None.
Proof.
  intros Hlen. unfold write4, store.
  repeat (case_decide; cbn [mbind option_bind]; [|done]).
  exfalso.
  repeat match goal with
  | Hi : context [length (<[_ := _]> _)] |- _ => rewrite length_insert in Hi
  end. lia.
Qed.

(** X12.  [AngleAxisAndCenterToCamera] writes the rotation and the
    translation of a camera block and nothing else: it is defined exactly
    when the first [camera_block_size() - 3] scalars of the block lie
    inside the array, and then every scalar before the block and from the
    focal length on (the intrinsics and all other blocks) keeps its
    value, in the angle-axis and in the quaternion layout. *)
Theorem AngleAxisAndCenterToCamera_frame (p : BALProblem F)
    (angle_axis center : Vector3 F) (mem : list F) (camera : nat) :
  let n := (Z.to_nat (camera_block_size p) - 3)%nat in
  ((camera + n <= length mem)%nat ->
     exists mem',
       AngleAxisAndCenterToCamera p angle_axis center mem camera = Some mem'
       /\ length mem' = length mem
       /\ forall i, (i < camera \/ camera + n <= i)%nat ->
            mem' !! i = mem !! i)
  /\ ((length mem < camera + n)%nat ->
      AngleAxisAndCenterToCamera p angle_axis center mem camera = None).
Proof.
  unfold AngleAxisAndCenterToCamera, camera_block_size.
  destruct (use_quaternions_ p); cbn zeta.
  - change (Z.to_nat 10 - 3)%nat with 7%nat.
    replace (camera + Z.to_nat 10 - 6)%nat with (camera + 4)%nat
      by (change (Z.to_nat 10) with 10%nat; lia).
    split; intros Hlen.
    + destruct (write4_spec mem camera (AngleAxisToQuaternion angle_axis))
        as (m1 & -> & Hl1 & Hf1); [lia|].
      cbn [mbind option_bind].
      destruct (write3_spec m1 (camera + 4)
                  (AngleAxisRotatePoint angle_axis center))
        as (m2 & -> & Hl2 & _ & _ & _ & Hf2); [lia|].
      cbn [mbind option_bind].
      destruct (read3_total m2 (camera + 4))
        as (a & b & c & _ & _ & _ & ->); [lia|].
      cbn [mbind option_bind].
      destruct (write3_spec m2 (camera + 4)
                  (v3_scale (mkV3 a b c) (sc_neg sc_one)))
        as (m3 & -> & Hl3 & _ & _ & _ & Hf3); [lia|].
      exists m3. split; [done|]. split; [lia|].
      intros i Hi. rewrite Hf3, Hf2, Hf1 by lia. done.
    + destruct (decide (camera + 4 <= length mem)%nat) as [Hfit|Hfit].
      * destruct (write4_spec mem camera (AngleAxisToQuaternion angle_axis))
          as (m1 & -> & Hl1 & _); [lia|].
        cbn [mbind option_bind].
        rewrite write3_None by lia. done.
      * rewrite write4_None by lia. done.
  - change (Z.to_nat 9 - 3)%nat with 6%nat.
    replace (camera + Z.to_nat 9 - 6)%nat with (camera + 3)%nat
      by (change (Z.to_nat 9) with 9%nat; lia).
    split; intros Hlen.
    + destruct (write3_spec mem camera angle_axis)
        as (m1 & -> & Hl1 & _ & _ & _ & Hf1); [lia|].
      cbn [mbind option_bind].
      destruct (write3_spec m1 (camera + 3)
                  (AngleAxisRotatePoint angle_axis center))
        as (m2 & -> & Hl2 & _ & _ & _ & Hf2); [lia|].
      cbn [mbind option_bind].
      destruct (read3_total m2 (camera + 3))
        as (a & b & c & _ & _ & _ & ->); [lia|].
      cbn [mbind option_bind].
      destruct (write3_spec m2 (camera + 3)
                  (v3_scale (mkV3 a b c) (sc_neg sc_one)))
        as (m3 & -> & Hl3 & _ & _ & _ & Hf3); [lia|].
      exists m3. split; [done|]. split; [lia|].
      intros i Hi. rewrite Hf3, Hf2, Hf1 by lia. done.
    + destruct (decide (camera + 3 <= length mem)%nat) as [Hfit|Hfit].
      * destruct (write3_spec mem camera angle_axis)
          as (m1 & -> & Hl1 & _); [lia|].
        cbn [mbind option_bind].
        rewrite write3_None by lia. done.
      * rewrite write3_None by lia. done.
Qed.

End BlockWriters.

Section EstimateBlocks.
Context {F : Type} `{Scalar F} `{SO3Group F} `{!SO3ExpLog F}.

Lemma PoseAndIntrinsics_of_fits (mem : list F) (off : nat) :
  is_Some (PoseAndIntrinsics_of mem off) -> (off + 9 <= length mem)%nat.
Proof.
  intros [e He]. unfold PoseAndIntrinsics_of in He.
  repeat match type of He with
  | (_ ≫= _) = Some _ => apply bind_Some in He as (? & ? & He)
  end.
  match goal with
  | Hl : load mem (off + 8)%nat = Some _ |- _ =>
    apply lookup_lt_Some in Hl; lia
  end.
Qed.

Lemma set_to_fits (e : PoseAndIntrinsics F) (mem : list F) (off : nat) :
  is_Some (set_to e mem off) -> (off + 9 <= length mem)%nat.
Proof.
  intros [mem' Hs]. unfold set_to in Hs.
  repeat match type of Hs with
  | (_ ≫= _) = Some _ =>
    apply bind_Some in Hs as (? & ?%store_length & Hs)
  end.
  unfold store in Hs. case_decide; [|done]. lia.
Qed.

(** X13.  The constructor of [PoseAndIntrinsics] and [set_to] are defined
    exactly when the nine scalars at [data_addr] lie inside the array.
    [set_to] keeps the length of the array, and an estimate read from any
    block of nine scalars that does not overlap the one written is the
    same before and after. *)
Theorem set_to_touches_only_its_block (e : PoseAndIntrinsics F)
    (mem : list F) (off : nat) :
  (is_Some (PoseAndIntrinsics_of mem off) <-> (off + 9 <= length mem)%nat)
  /\ (is_Some (set_to e mem off) <-> (off + 9 <= length mem)%nat)
  /\ forall mem', set_to e mem off = Some mem' ->
       length mem' = length mem
       /\ forall off', (off' + 9 <= off \/ off + 9 <= off')%nat ->
            PoseAndIntrinsics_of mem' off' = PoseAndIntrinsics_of mem off'.
Proof.
  split; [|split].
  - split; [apply PoseAndIntrinsics_of_fits
           | apply PoseAndIntrinsics_of_total].
  - split; [apply set_to_fits|].
    intros Hlen. rewrite set_to_Some by done. eauto.
  - intros mem' Hs.
    assert (Hlen : (off + 9 <= length mem)%nat) by (apply (set_to_fits e); eauto).
    destruct (set_to_spec e mem off Hlen) as (m & Hm & Hl & _ & Hf).
    rewrite Hs in Hm. injection Hm as <-.
    split; [done|]. intros off' Hoff.
    unfold PoseAndIntrinsics_of, load.
    rewrite !Hf by lia. done.
Qed.

End EstimateBlocks.

(** ** The PLY writer *)

Section PLYFacts.
Context {F : Type} `{Scalar F}.
Variable AngleAxisRotatePoint : Vector3 F -> Vector3 F -> Vector3 F.
Variable QuaternionToAngleAxis : Quaternion F -> Vector3 F.
Variable multichar_255_255_255 : Z.

Local Abbreviation CameraToAngleAxisAndCenter :=
  (CameraToAngleAxisAndCenter AngleAxisRotatePoint QuaternionToAngleAxis).
Local Abbreviation ply_camera :=
  (ply_camera AngleAxisRotatePoint QuaternionToAngleAxis).
Local Abbreviation ply_point := (ply_point multichar_255_255_255).
Local Abbreviation WriteToPLYFile :=
  (WriteToPLYFile AngleAxisRotatePoint QuaternionToAngleAxis
     multichar_255_255_255).

Lemma count_app {A : Type} (f : A -> bool) (l1 l2 : list A) :
  count f (l1 ++ l2) = (count f l1 + count f l2)%nat.
Proof. unfold count. by rewrite List.filter_app, length_app. Qed.

Lemma read4_total (mem : list F) off :
  (off + 4 <= length mem)%nat -> is_Some (read4 mem off).
Proof. intros Hlen. unfold read4. do 4 load_ok. eauto. Qed.

Lemma CameraToAngleAxisAndCenter_total (p : BALProblem F) (mem : list F)
    (camera : nat) :
  (camera + Z.to_nat (camera_block_size p) <= length mem)%nat ->
  is_Some (CameraToAngleAxisAndCenter p mem camera).
Proof.
  unfold CameraToAngleAxisAndCenter, camera_block_size.
  destruct (use_quaternions_ p); intros Hlen.
  - destruct (read4_total mem camera) as [q ->];
      [change (Z.to_nat 10) with 10%nat in Hlen; lia|].
    cbn [mbind option_bind].
    destruct (read3_total mem (camera + Z.to_nat 10 - 6))
      as (a & b & c & _ & _ & _ & ->);
      [change (Z.to_nat 10) with 10%nat in *; lia|].
    cbn [mbind option_bind]. eauto.
  - destruct (read3_total mem camera) as (a & b & c & _ & _ & _ & ->);
      [change (Z.to_nat 9) with 9%nat in Hlen; lia|].
    cbn [mbind option_bind].
    destruct (read3_total mem (camera + Z.to_nat 9 - 6))
      as (a' & b' & c' & _ & _ & _ & ->);
      [change (Z.to_nat 9) with 9%nat in *; lia|].
    cbn [mbind option_bind]. eauto.
Qed.

(** X14.  On a well-formed problem [WriteToPLYFile] writes the header,
    which announces [num_cameras_ + num_points_] vertices, then seven
    items per camera (three coordinates and a line end among them) and
    seven items per point (three coordinates and one [int], the value of
    the multi-character literal).  The point part holds no line end: the
    body of the file has [num_cameras_] lines, not the announced
    number. *)
Theorem WriteToPLYFile_lines (p : BALProblem F) :
  BALProblem_wf p ->
  exists cams pts,
    WriteToPLYFile p = Some (ply_header p ++ cams ++ pts)
    /\ ply_header p !! 5%nat
       = Some (Put_int (num_cameras_ p + num_points_ p))
    /\ length cams = (7 * Z.to_nat (num_cameras_ p))%nat
    /\ count is_newline cams = Z.to_nat (num_cameras_ p)
    /\ count is_double cams = (3 * Z.to_nat (num_cameras_ p))%nat
    /\ length pts = (7 * Z.to_nat (num_points_ p))%nat
    /\ count is_newline pts = 0%nat
    /\ count is_double pts = (3 * Z.to_nat (num_points_ p))%nat
    /\ count is_int pts = Z.to_nat (num_points_ p).
Proof.
  intros Hwf.
  pose proof (parameters_length p Hwf) as Hlen.
  pose proof (camera_block_size_cases p) as Hcbs.
  destruct (for_range_total
    (fun i (out : list (stream_item F)) =>
       exists cams, out = ply_header p ++ cams
         /\ length cams = (7 * i)%nat
         /\ count is_newline cams = i
         /\ count is_double cams = (3 * i)%nat)
    (ply_camera p) (Z.to_nat (num_cameras_ p)) 0 (ply_header p))
    as (o1 & Hr1 & cams & -> & Hc1 & Hc2 & Hc3).
  { exists []. by rewrite app_nil_r. }
  { intros i s Hi (cams & -> & Hc1 & Hc2 & Hc3).
    unfold ply_camera.
    cbn [mutable_cameras mbind option_bind].
    destruct (CameraToAngleAxisAndCenter_total p (parameters_ p)
                (0 + Z.to_nat (camera_block_size p) * i))
      as [[aa c] Hc].
    { assert (Z.to_nat (camera_block_size p) * (i + 1)
              <= Z.to_nat (camera_block_size p)
                 * Z.to_nat (num_cameras_ p))%nat
        by (apply Nat.mul_le_mono_l; lia).
      lia. }
    rewrite Hc. cbn [mbind option_bind].
    eexists. split; [reflexivity|].
    eexists. split; [by rewrite <- app_assoc|].
    unfold count in *. rewrite !List.filter_app, !length_app.
    cbn [List.filter is_newline is_double length]. lia. }
  rewrite Nat.add_0_l in Hc1, Hc2, Hc3.
  destruct (for_range_total
    (fun i (out : list (stream_item F)) =>
       exists pts, out = ply_header p ++ cams ++ pts
         /\ length pts = (7 * i)%nat
         /\ count is_newline pts = 0%nat
         /\ count is_double pts = (3 * i)%nat
         /\ count is_int pts = i)
    (ply_point p
       (Z.to_nat (camera_block_size p) * Z.to_nat (num_cameras_ p)))
    (Z.to_nat (num_points_ p)) 0 (ply_header p ++ cams))
    as (o2 & Hr2 & pts & -> & Hp1 & Hp2 & Hp3 & Hp4).
  { exists []. by rewrite !app_nil_r. }
  { intros i s Hi (pts & -> & Hp1 & Hp2 & Hp3 & Hp4).
    unfold ply_point, point_block_size.
    change (Z.to_nat 3) with 3%nat.
    cbn [for_range mbind option_bind].
    do 3 load_ok.
    eexists. split; [reflexivity|].
    eexists. split; [by rewrite <- !app_assoc|].
    unfold count in *. rewrite !List.filter_app, !length_app.
    cbn [List.filter is_newline is_double is_int length app]. lia. }
  rewrite Nat.add_0_l in Hp1, Hp3, Hp4.
  exists cams, pts. split.
  - unfold WriteToPLYFile. rewrite Hr1. cbn [mbind option_bind].
    rewrite (mutable_points_wf p Hwf). cbn [mbind option_bind].
    exact Hr2.
  - split; [reflexivity|]. repeat split; lia.
Qed.

End PLYFacts.

Lemma WriteToPLYFile_lines_witness :
  BALProblem_wf (tiny_problem 0%R 1%R)
  /\ exists cams pts,
       WriteToPLYFile IdealSO3.AngleAxisRotatePoint
         IdealSO3.QuaternionToAngleAxis 0 (tiny_problem 0%R 1%R)
       = Some (ply_header (tiny_problem 0%R 1%R) ++ cams ++ pts)
       /\ ply_header (tiny_problem 0%R 1%R) !! 5%nat
          = Some (Put_int 2)
       /\ length cams = 7%nat
       /\ count is_newline cams = 1%nat
       /\ count is_double cams = 3%nat
       /\ length pts = 7%nat
       /\ count is_newline pts = 0%nat
       /\ count is_double pts = 3%nat
       /\ count is_int pts = 1%nat.
Proof.
  assert (Hwf : BALProblem_wf (tiny_problem 0%R 1%R))
    by apply tiny_problem_wf.
  split; [exact Hwf|].
  exact (WriteToPLYFile_lines IdealSO3.AngleAxisRotatePoint
           IdealSO3.QuaternionToAngleAxis 0 (tiny_problem 0%R 1%R) Hwf).
Defined.

(** ** The update of a camera vertex over the reals *)

Section PoseUpdate.
Import IdealSO3.
Local Open Scope R_scope.

Lemma q_mul_identity_l (q : Quaternion R) : q_mul (mkQ 1 0 0 0) q = q.
Proof. destruct q. unfold q_mul. cbn. f_equal; ring. Qed.

Lemma q_mul_identity_r (q : Quaternion R) : q_mul q q_identity = q.
Proof. destruct q. unfold q_mul, q_identity. cbn. f_equal; ring. Qed.

Lemma q_mul_assoc (a b c : Quaternion R) :
  q_mul a (q_mul b c) = q_mul (q_mul a b) c.
Proof. destruct a, b, c. unfold q_mul. cbn. f_equal; ring. Qed.

(** X15.  In exact arithmetic, with rotations as quaternions:
    [oplusImpl] with the zero update leaves the estimate as it is, and
    two updates in a row multiply their rotations onto the left of the
    estimate's, later update leftmost, while the translation and the
    three intrinsics take the sum of the two increments. *)
Theorem oplusImpl_zero_and_compose (e : PoseAndIntrinsics R) :
  oplusImpl e [0; 0; 0; 0; 0; 0; 0; 0; 0] = Some e
  /\ forall u0 u1 u2 u3 u4 u5 u6 u7 u8 v0 v1 v2 v3 v4 v5 v6 v7 v8 : R,
       exists e1,
         oplusImpl e [u0; u1; u2; u3; u4; u5; u6; u7; u8] = Some e1
         /\ oplusImpl e1 [v0; v1; v2; v3; v4; v5; v6; v7; v8]
            = Some {| rotation :=
                        SO3_mul (SO3_mul (SO3_exp (mkV3 v0 v1 v2))
                                         (SO3_exp (mkV3 u0 u1 u2)))
                                (rotation e);
                      translation :=
                        v3_add (translation e)
                               (mkV3 (u3 + v3) (u4 + v4) (u5 + v5));
                      focal := focal e + (u6 + v6);
                      k1 := k1 e + (u7 + v7);
                      k2 := k2 e + (u8 + v8) |}.
Proof.
  split.
  - destruct e as [r [t0 t1 t2] f a b].
    cbn [oplusImpl load lookup list_lookup mbind option_bind
         rotation translation focal k1 k2].
    change (SO3_exp (mkV3 0 0 0)) with (exp (mkV3 0 0 0)).
    rewrite exp_zero.
    cbn [SO3_mul SO3Group_quaternion].
    rewrite (q_mul_identity_l r).
    do 2 f_equal; cbv [v3_add sc_add Scalar_R v3_0 v3_1 v3_2];
      first [ring | f_equal; ring].
  - intros. eexists. split; [reflexivity|].
    destruct e as [r [t0 t1 t2] f a b].
    cbn [oplusImpl load lookup list_lookup mbind option_bind
         rotation translation focal k1 k2].
    cbn [SO3_mul SO3Group_quaternion].
    rewrite q_mul_assoc.
    do 2 f_equal; cbv [v3_add sc_add Scalar_R v3_0 v3_1 v3_2];
      first [ring | f_equal; ring].
Qed.

(** X16.  In exact arithmetic, a camera vertex set to the origin, updated
    once by [u] and written out with [set_to] leaves [u] itself in the
    block, provided the rotation part [u[0:3]] has norm below PI; the
    rest of the array is untouched. *)
Theorem origin_update_writes_update (u0 u1 u2 u3 u4 u5 u6 u7 u8 : R)
    (mem : list R) (off : nat) :
  R_sqrt.sqrt (v3_squaredNorm (mkV3 u0 u1 u2)) < PI ->
  (off + 9 <= length mem)%nat ->
  exists e mem',
    oplusImpl setToOriginImpl_pose [u0; u1; u2; u3; u4; u5; u6; u7; u8]
    = Some e
    /\ set_to e mem off = Some mem'
    /\ length mem' = length mem
    /\ (forall j, (j < 9)%nat ->
          mem' !! (off + j)%nat
          = [u0; u1; u2; u3; u4; u5; u6; u7; u8] !! j)
    /\ (forall i, (i < off \/ off + 9 <= i)%nat -> mem' !! i = mem !! i).
Proof.
  intros Hpi Hlen. eexists.
  destruct (set_to_spec
    {| rotation := SO3_mul (SO3_exp (mkV3 u0 u1 u2)) SO3_identity;
       translation := mkV3 u3 u4 u5; focal := u6; k1 := u7; k2 := u8 |}
    mem off Hlen) as (mem' & Hs & Hl & Hr & Hf).
  exists mem'. split; [|split; [exact Hs|]].
  - cbn [oplusImpl load lookup list_lookup mbind option_bind
         setToOriginImpl_pose PoseAndIntrinsics_default
         rotation translation focal k1 k2].
    do 2 f_equal;
      cbv [v3_add Vector3_Zero sc_add sc_zero Scalar_R v3_0 v3_1 v3_2];
      first [ring | f_equal; ring].
  - split; [done|]. split; [|done].
    intros j Hj. rewrite (Hr j Hj). unfold toRaw_spec.
    cbn [rotation translation focal k1 k2 v3_0 v3_1 v3_2].
    cbn [SO3_mul SO3_identity SO3Group_quaternion].
    rewrite q_mul_identity_r.
    cbn [SO3_log SO3_exp SO3ExpLog_R].
    rewrite log_exp_principal by done.
    done.
Qed.

End PoseUpdate.

(** A first update of one radian about the x-axis and a unit focal
    length, written at the start of a block of nine zeros. *)
Lemma origin_update_writes_update_witness :
  (R_sqrt.sqrt (v3_squaredNorm (mkV3 1 0 0)) < PI)%R
  /\ exists (e : PoseAndIntrinsics R) (mem' : list R),
       oplusImpl setToOriginImpl_pose [1; 0; 0; 0; 0; 0; 1; 0; 0]%R = Some e
       /\ set_to e (replicate 9 0%R) 0 = Some mem'
       /\ forall j, (j < 9)%nat ->
            mem' !! (0 + j)%nat = [1; 0; 0; 0; 0; 0; 1; 0; 0]%R !! j.
Proof.
  split; [exact unit_angle_on_branch|].
  destruct (origin_update_writes_update 1 0 0 0 0 0 1 0 0
              (replicate 9 0%R) 0 unit_angle_on_branch)
    as (e & mem' & He & Hs & _ & Hr & _); [simpl; lia|].
  exists e, mem'. split; [exact He|]. split; [exact Hs|exact Hr].
Defined.

(** ** The projection without distortion *)

Section Pinhole.
Context `{G : SO3Group R}.
Local Open Scope R_scope.

(** X17.  In exact arithmetic, at a non-zero depth and with both
    distortion coefficients zero, [project] is the pinhole projection
    [- focal * (X / Z, Y / Z)] of the camera-frame point [(X, Y, Z)]:
    the radius does not enter. *)
Theorem project_pinhole_without_distortion
    (e : PoseAndIntrinsics R) (p : Vector3 R) :
  depth e p <> 0 ->
  k1 e = 0 ->
  k2 e = 0 ->
  project e p
  = mkV2 (- focal e
          * (v3_0 (v3_add (SO3_act (rotation e) p) (translation e))
             / depth e p))
         (- focal e
          * (v3_1 (v3_add (SO3_act (rotation e) p) (translation e))
             / depth e p)).
Proof.
  unfold depth, project. intros Hz -> ->.
  destruct (v3_add (SO3_act (rotation e) p) (translation e)) as [X Y Z].
  cbn in *. f_equal; field; assumption.
Qed.

End Pinhole.

Lemma project_pinhole_without_distortion_witness :
  project (F := R)
    {| rotation := (SO3_identity : SO3d (F := R));
       translation := mkV3 0 0 0; focal := 2; k1 := 0; k2 := 0 |}%R
    (mkV3 1 2 (- (1)))%R
  = mkV2 2%R 4%R.
Proof.
  rewrite project_pinhole_without_distortion.
  - cbv [depth rotation translation focal v3_add v3_0 v3_1 v3_2 SO3_act
         SO3_identity SO3Group_quaternion q_transformVector q_identity
         q_vec v3_cross q_w q_x q_y q_z sc_add sc_mul sc_sub sc_zero sc_one
         Scalar_R].
    f_equal; field.
  - cbv [depth rotation translation focal v3_add v3_0 v3_1 v3_2 SO3_act
         SO3_identity SO3Group_quaternion q_transformVector q_identity
         q_vec v3_cross q_w q_x q_y q_z sc_add sc_mul sc_sub sc_zero sc_one
         Scalar_R].
    intros Hc. lra.
  - reflexivity.
  - reflexivity.
Defined.

(** ** An observation that names no point *)

Section GraphPointIndex.
Context {F : Type} `{Scalar F} `{SO3Group F} `{!SO3ExpLog F}.
Implicit Types p : BALProblem F.

Lemma point_vertices_length p points pts :
  for_range (add_point_vertex p points) 0 (Z.to_nat (num_points_ p)) []
  = Some pts ->
  length pts = Z.to_nat (num_points_ p).
Proof.
  intros Hr.
  apply (for_range_inv
           (fun n (vs : list (VertexPoint F)) => length vs = n)
           _ _ _ _ _ Hr); [done|].
  intros i s s1 _ Hs Hb. unfold add_point_vertex in Hb.
  apply bind_Some in Hb as (x & _ & Hb).
  apply bind_Some in Hb as (y & _ & Hb).
  apply bind_Some in Hb as (z & _ & [= <-]).
  rewrite length_app. simpl. lia.
Qed.

(** X18.  [SolveBA] indexes its vector of point vertices with
    [point_index[i]] unchecked as well: on a problem one of whose
    observations names a point below 0 or not below [num_points], the
    run is undefined, whatever the optimizer and whatever the camera
    index of that observation. *)
Theorem SolveBA_undefined_on_bad_point_index
    (optimize : nat -> Graph F -> Graph F) p (i : nat) (pi : Z) :
  (i < Z.to_nat (num_observations_ p))%nat ->
  point_index_ p !! i = Some pi ->
  (pi < 0 \/ num_points_ p <= pi)%Z ->
  SolveBA optimize p = None.
Proof.
  intros Hi Hpi Hbad. unfold SolveBA.
  destruct (mutable_points p) as [points|]; [|done].
  cbn [mbind option_bind mutable_cameras].
  replace (build_graph p) with (@None (Graph F)); [done|].
  symmetry. unfold build_graph.
  destruct (mutable_points p) as [points'|]; [|done].
  cbn [mbind option_bind mutable_cameras].
  destruct (for_range (add_camera_vertex p 0) _ _ _) as [cams|];
    [|done].
  cbn [mbind option_bind].
  destruct (for_range (add_point_vertex p points') _ _ _) as [pts|] eqn:Ep;
    [|done].
  cbn [mbind option_bind].
  rewrite (for_range_None (add_edge p cams pts) _ 0 i); [done|lia|].
  intros es. unfold add_edge.
  destruct (camera_index_ p !! i) as [ci|]; [|done].
  cbn [mbind option_bind].
  destruct (vector_at cams ci) as [v|]; [|done].
  cbn [mbind option_bind]. rewrite Hpi. cbn [mbind option_bind].
  apply point_vertices_length in Ep.
  unfold vector_at. case_decide; [|done].
  rewrite (lookup_ge_None_2 pts) by lia. done.
Qed.

End GraphPointIndex.

(** One observation that names point 1 of a problem with one point. *)
Lemma SolveBA_undefined_on_bad_point_index_witness :
  SolveBA (fun _ (g : Graph R) => g)
    {| num_cameras_ := 1; num_points_ := 1; num_observations_ := 1;
       num_parameters_ := 12; use_quaternions_ := false;
       point_index_ := [1%Z]; camera_index_ := [0%Z];
       observations_ := [0; 0]%R;
       parameters_ := [0; 0; 0; 0; 0; 0; 1; 0; 0; 0; 0; 1]%R |}
  = None.
Proof.
  apply (SolveBA_undefined_on_bad_point_index _ _ 0%nat 1%Z).
  - simpl. lia.
  - reflexivity.
  - simpl. lia.
Defined.
